(** * db_config: shared PostgreSQL connection helpers

    A shallow embedding of [src/db_config.py] and the properties of its
    environment reader, pool manager, scoped connection provider and scalar
    query helper.

    The driver ([psycopg]) and the pooling library ([psycopg_pool]) are
    external collaborators.  Every call the module makes on them is recorded
    in a trace, and what such a call answers (a value or a raised exception)
    is left to an oracle, so that every statement below holds for every
    behaviour of the driver and of the pool. *)

From Stdlib Require Import ZArith NArith Lia List Bool Ascii String.
From Stdlib Require DecimalString DecimalZ DecimalPos.
From stdpp Require Import base option list strings gmap.

Local Open Scope string_scope.
Local Open Scope list_scope.
Local Open Scope Z_scope.

(** ** Exceptions and results *)

(** The exceptions that can travel through the module.  [DriverError] and
    [CallerError] stand for instances of [Exception] raised by the external
    libraries and by the code run inside a scope; [Interrupt] stands for a
    [BaseException] that is not an [Exception] (KeyboardInterrupt,
    SystemExit, GeneratorExit). *)
Inductive exn : Type :=
| NameError (name : string)
| RuntimeError (msg : string)
| TypeError (msg : string)
| AttributeError (msg : string)
| KeyError (msg : string)
| IndexError (msg : string)
| DriverError (tag : nat)
| CallerError (tag : nat)
| Interrupt (tag : nat).

(** [isinstance(e, Exception)], the test made by [except Exception]. *)
Definition is_Exception (e : exn) : bool :=
  match e with
  | Interrupt _ => false
  | _ => true
  end.

Inductive result (A : Type) : Type :=
| Ok (a : A)
| Raise (e : exn).
Arguments Ok {A} a.
Arguments Raise {A} e.

(** ** [int(raw)] on a string *)

(** [int] on a [str], as CPython 3.11 computes it in base ten
    ([PyLong_FromUnicodeObject]): the characters above ASCII are first
    brought down to ASCII, a blank of Unicode to a space and a decimal
    digit of Unicode to the ASCII digit of the same value
    ([_PyUnicode_TransformDecimalAndSpaceToASCII]); the result is then read
    as blanks, a sign, digits and blanks ([PyLong_FromString]).

    The values of the environment are bytes; [os.getenv] decodes them as
    UTF-8 (the file system encoding of a UTF-8 locale and of Python's UTF-8
    mode), a byte that cannot be decoded becoming a lone surrogate, which
    [int] rejects like any character that is neither a blank nor a
    digit. *)
Module PyInt.

(** [Py_ISSPACE], by which [PyLong_FromString] skips blanks: TAB, LF, VT,
    FF, CR and the space.  The separators FS..US (28..31) are not among
    them, although [str.isspace] holds of them. *)
Definition is_space (c : ascii) : bool :=
  let n := nat_of_ascii c in
  ((9 <=? n)%nat && (n <=? 13)%nat) || (n =? 32)%nat.

(** [Py_UNICODE_ISSPACE] above ASCII (Unicode 14.0, the version CPython
    3.11 carries): NEL, NBSP, the Ogham space mark, EN QUAD..HAIR SPACE, the
    line and paragraph separators, the narrow no-break space, the medium
    mathematical space and the ideographic space. *)
Definition is_unicode_space (cp : N) : bool :=
  ((cp =? 0x85) || (cp =? 0xA0) || (cp =? 0x1680)
   || ((0x2000 <=? cp) && (cp <=? 0x200A))
   || (cp =? 0x2028) || (cp =? 0x2029) || (cp =? 0x202F) || (cp =? 0x205F)
   || (cp =? 0x3000))%N.

(** The digits zero of the decimal digits of Unicode 14.0 above ASCII
    (category Nd): each one is followed by the digits one to nine of its
    script. *)
Definition decimal_zeros : list N :=
  [0x660; 0x6F0; 0x7C0; 0x966; 0x9E6; 0xA66; 0xAE6; 0xB66; 0xBE6; 0xC66;
   0xCE6; 0xD66; 0xDE6; 0xE50; 0xED0; 0xF20; 0x1040; 0x1090; 0x17E0;
   0x1810; 0x1946; 0x19D0; 0x1A80; 0x1A90; 0x1B50; 0x1BB0; 0x1C40; 0x1C50;
   0xA620; 0xA8D0; 0xA900; 0xA9D0; 0xA9F0; 0xAA50; 0xABF0; 0xFF10; 0x104A0;
   0x10D30; 0x11066; 0x110F0; 0x11136; 0x111D0; 0x112F0; 0x11450; 0x114D0;
   0x11650; 0x116C0; 0x11730; 0x118E0; 0x11950; 0x11C50; 0x11D50; 0x11DA0;
   0x16A60; 0x16AC0; 0x16B50; 0x1D7CE; 0x1D7D8; 0x1D7E2; 0x1D7EC; 0x1D7F6;
   0x1E140; 0x1E2F0; 0x1E950; 0x1FBF0]%N.

(** [Py_UNICODE_TODECIMAL] above ASCII. *)
Definition unicode_decimal (cp : N) : option N :=
  match List.find (fun z => ((z <=? cp) && (cp <? z + 10))%N) decimal_zeros with
  | Some z => Some (cp - z)%N
  | None => None
  end.

(** A continuation byte of UTF-8 and the six bits it carries. *)
Definition continuation (b : N) : option N :=
  if ((0x80 <=? b) && (b <=? 0xBF))%N then Some (b - 0x80)%N else None.

(** The code points that a sequence of bytes encodes in UTF-8; [None] when
    the bytes are not UTF-8 (a stray or missing continuation byte, an
    overlong form, a surrogate, a value above U+10FFFF). *)
Fixpoint decode (l : list N) : option (list N) :=
  match l with
  | [] => Some []
  | b0 :: r0 =>
      if (b0 <? 0x80)%N then
        match decode r0 with
        | Some cps => Some (b0 :: cps)
        | None => None
        end
      else if ((0xC0 <=? b0) && (b0 <=? 0xDF))%N then
        match r0 with
        | b1 :: r1 =>
            match continuation b1, decode r1 with
            | Some c1, Some cps =>
                let cp := ((b0 - 0xC0) * 64 + c1)%N in
                if (0x80 <=? cp)%N then Some (cp :: cps) else None
            | _, _ => None
            end
        | _ => None
        end
      else if ((0xE0 <=? b0) && (b0 <=? 0xEF))%N then
        match r0 with
        | b1 :: b2 :: r2 =>
            match continuation b1, continuation b2, decode r2 with
            | Some c1, Some c2, Some cps =>
                let cp := ((b0 - 0xE0) * 4096 + c1 * 64 + c2)%N in
                if ((0x800 <=? cp) && negb ((0xD800 <=? cp) && (cp <=? 0xDFFF)))%N
                then Some (cp :: cps) else None
            | _, _, _ => None
            end
        | _ => None
        end
      else if ((0xF0 <=? b0) && (b0 <=? 0xF7))%N then
        match r0 with
        | b1 :: b2 :: b3 :: r3 =>
            match continuation b1, continuation b2, continuation b3, decode r3 with
            | Some c1, Some c2, Some c3, Some cps =>
                let cp := ((b0 - 0xF0) * 262144 + c1 * 4096 + c2 * 64 + c3)%N in
                if ((0x10000 <=? cp) && (cp <=? 0x10FFFF))%N
                then Some (cp :: cps) else None
            | _, _, _, _ => None
            end
        | _ => None
        end
      else None
  end.

(** One character on its way to ASCII: itself below 127, a space for a
    blank, the ASCII digit for a decimal digit.  [None] stands for the [?]
    that CPython writes for any other character, and at which it stops:
    the string is then rejected whatever else it holds. *)
Definition to_ascii (cp : N) : option ascii :=
  if (cp <? 127)%N then Some (ascii_of_N cp)
  else if is_unicode_space cp then Some " "%char
  else
    match unicode_decimal cp with
    | Some d => Some (ascii_of_N (48 + d))
    | None => None
    end.

Fixpoint transform (cps : list N) : option (list ascii) :=
  match cps with
  | [] => Some []
  | cp :: rest =>
      match to_ascii cp, transform rest with
      | Some c, Some l => Some (c :: l)
      | _, _ => None
      end
  end.

Definition digit_value (c : ascii) : option Z :=
  let n := nat_of_ascii c in
  if ((48 <=? n)%nat && (n <=? 57)%nat) then Some (Z.of_nat (n - 48)) else None.

Fixpoint lstrip (l : list ascii) : list ascii :=
  match l with
  | c :: r => if is_space c then lstrip r else l
  | [] => []
  end.

Definition strip (l : list ascii) : list ascii :=
  rev (lstrip (rev (lstrip l))).

(** Decimal digits, where a single underscore may stand between two digits.
    [prev] tells whether the previous character was a digit. *)
Fixpoint digits (acc : Z) (prev : bool) (l : list ascii) : option Z :=
  match l with
  | [] => if prev then Some acc else None
  | c :: r =>
      if Ascii.eqb c "_"%char then
        (if prev then digits acc false r else None)
      else
        match digit_value c with
        | Some d => digits (10 * acc + d) true r
        | None => None
        end
  end.

(** [sys.int_info.default_max_str_digits]: a string with more digits than
    this is rejected with [ValueError], whatever their value (leading zeros
    count, underscores do not).  The module never changes the limit. *)
Definition max_str_digits : nat := 4300.

Definition is_digit (c : ascii) : bool :=
  match digit_value c with
  | Some _ => true
  | None => false
  end.

Definition count_digits (l : list ascii) : nat := length (List.filter is_digit l).

(** [PyLong_FromString] in base ten, on a string that must be read to its
    end: blanks, an optional sign, digits, blanks.  [None] is
    [ValueError]. *)
Definition from_string (l : list ascii) : option Z :=
  match strip l with
  | c :: r =>
      if (max_str_digits <? count_digits (c :: r))%nat then None
      else if Ascii.eqb c "+"%char then digits 0 false r
      else if Ascii.eqb c "-"%char then Z.opp <$> digits 0 false r
      else digits 0 false (c :: r)
  | [] => None
  end.

(** [int(raw)], [raw] being a value of the environment: [None] is
    [ValueError]. *)
Definition py_int (raw : string) : option Z :=
  match decode (List.map N_of_ascii (list_ascii_of_string raw)) with
  | Some cps =>
      match transform cps with
      | Some l => from_string l
      | None => None
      end
  | None => None
  end.

End PyInt.

(** ** The process environment and [_env_int] *)

(** [os.environ]: a finite map from variable names to their values, each
    value being the bytes that the process holds for it. *)
Abbreviation Environ := (gmap string string).

(** [_env_int(name, default)]: [os.getenv] answers [None] for an unset
    variable; [int(raw)] raises [ValueError], which the [except] clause
    turns into the default.  The function is written in the result type so
    that "raises nothing" is a statement about its value. *)
Definition _env_int (env : Environ) (name : string) (default : Z) : result Z :=
  match env !! name with
  | None => Ok default
  | Some raw =>
      match PyInt.py_int raw with
      | Some n => Ok n
      | None => Ok default
      end
  end.

(** ** Python values, connections and the module state *)

(** The row factories a connection can carry: [psycopg.rows.tuple_row] (the
    driver's default), [psycopg.rows.dict_row], or any other one a caller
    installs. *)
Inductive RowFactory : Type :=
| tuple_row
| dict_row
| custom_row (n : nat).

(** The values that travel in keyword dictionaries and in rows. *)
Inductive pyval : Type :=
| VNone
| VBool (b : bool)
| VInt (z : Z)
| VStr (s : string)
| VRowFactory (rf : RowFactory).

(** Truth value of an object, as tested by [if x:]. *)
Definition truthy (v : pyval) : bool :=
  match v with
  | VNone => false
  | VBool b => b
  | VInt z => negb (Z.eqb z 0)
  | VStr s => negb (String.eqb s "")
  | VRowFactory _ => true
  end.

(** A keyword dictionary, such as the one handed to [psycopg.connect]. *)
Abbreviation Kwargs := (gmap string pyval).

Definition conn_id := nat.
Definition pool_id := nat.
Bind Scope nat_scope with conn_id pool_id.

(** The attributes of a connection object that the module reads or writes. *)
Record ConnAttrs : Type := mkConn {
  autocommit : bool;
  row_factory : RowFactory;
}.

Global Instance ConnAttrs_inhabited : Inhabited ConnAttrs :=
  populate (mkConn false tuple_row).

(** The connection objects alive in the process. *)
Abbreviation Heap := (gmap conn_id ConnAttrs).

(** A row as [fetchone] hands it out: a tuple, or a mapping keyed by column
    name when the cursor was made under [dict_row]. *)
Inductive Row : Type :=
| TupleRow (cols : list pyval)
| DictRow (cols : list (string * pyval)).

(** The arguments of one [ConnectionPool(...)] call: the positional
    [conninfo] when it is passed, the two sizes, and the [kwargs] keyword
    (absent, [None], or a dictionary). *)
Record PoolArgs : Type := mkPoolArgs {
  pa_conninfo : option pyval;
  pa_min_size : Z;
  pa_max_size : Z;
  pa_kwargs : option (option Kwargs);
}.

(** The calls the module makes on the driver and on the pooling library.
    An event is recorded when the call is made, whatever it answers. *)
Inductive event : Type :=
| EConnect (kw : Kwargs)
| ECommit (c : conn_id)
| ERollback (c : conn_id)
| EClose (c : conn_id)
| EPoolNew (args : PoolArgs)
| EPoolEnter (p : pool_id)
| EPoolExit (p : pool_id) (c : conn_id) (exc : option exn)
| ECursor (c : conn_id)
| EExecute (c : conn_id) (query : string) (params : option (list pyval))
| EFetchone (c : conn_id)
| ECursorExit (c : conn_id) (exc : option exn).

(** How [_build_connect_kwargs] is called: without arguments ([get_pool])
    or with the [row_factory] keyword ([connect]). *)
Inductive HelperArgs : Type :=
| HNoArgs
| HRowFactory (rf : option RowFactory).

(** What a name of the module namespace is bound to.  Only a binding of
    [_build_connect_kwargs] is ever called, so every other object is opaque. *)
Inductive global : Type :=
| GObject
| GFunction (f : HelperArgs -> Environ -> result Kwargs).

Definition Globals := string -> option global.

Record World : Type := mkWorld {
  environ : Environ;
  globals : Globals;
  (** [ConnectionPool is not None]: the import of line 21 succeeded. *)
  pool_lib : bool;
  (** The module variable of line 27. *)
  _POOL : option pool_id;
  (** How many [ConnectionPool] objects were built; the next one gets this
      number as its identity. *)
  pools_built : nat;
  heap : Heap;
  trace : list event;
}.

Definition set_POOL (v : option pool_id) (w : World) : World :=
  mkWorld (environ w) (globals w) (pool_lib w) v (pools_built w) (heap w) (trace w).
Definition set_pools_built (n : nat) (w : World) : World :=
  mkWorld (environ w) (globals w) (pool_lib w) (_POOL w) n (heap w) (trace w).
Definition set_heap (h : Heap) (w : World) : World :=
  mkWorld (environ w) (globals w) (pool_lib w) (_POOL w) (pools_built w) h (trace w).
Definition record (ev : event) (w : World) : World :=
  mkWorld (environ w) (globals w) (pool_lib w) (_POOL w) (pools_built w) (heap w)
          (trace w ++ [ev]).

(** ** The module namespace *)

(** The names bound by the top-level statements of [db_config.py], in the
    order of their binding (lines 11-110). *)
Definition module_names : list string :=
  [ "annotations"; "os"; "contextmanager"; "Lock"; "Iterator"; "Optional";
    "psycopg"; "dict_row"; "RowFactory"; "ConnectionPool";
    "_POOL"; "_POOL_LOCK"; "_env_int"; "connect"; "get_pool";
    "connection_scope"; "fetch_value" ].

(** The names every module has from the start. *)
Definition module_dunders : list string :=
  [ "__name__"; "__doc__"; "__package__"; "__loader__"; "__spec__";
    "__file__"; "__cached__"; "__builtins__" ].

(** The [builtins] module: functions, constants and exception classes. *)
Definition builtin_names : list string :=
  [ "abs"; "aiter"; "all"; "anext"; "any"; "ascii"; "bin"; "bool";
    "breakpoint"; "bytearray"; "bytes"; "callable"; "chr"; "classmethod";
    "compile"; "complex"; "copyright"; "credits"; "delattr"; "dict"; "dir";
    "divmod"; "enumerate"; "eval"; "exec"; "exit"; "filter"; "float";
    "format"; "frozenset"; "getattr"; "globals"; "hasattr"; "hash"; "help";
    "hex"; "id"; "input"; "int"; "isinstance"; "issubclass"; "iter"; "len";
    "license"; "list"; "locals"; "map"; "max"; "memoryview"; "min"; "next";
    "object"; "oct"; "open"; "ord"; "pow"; "print"; "property"; "quit";
    "range"; "repr"; "reversed"; "round"; "set"; "setattr"; "slice";
    "sorted"; "staticmethod"; "str"; "sum"; "super"; "tuple"; "type";
    "vars"; "zip"; "__import__"; "__build_class__"; "__debug__";
    "None"; "True"; "False"; "Ellipsis"; "NotImplemented";
    "BaseException"; "BaseExceptionGroup"; "Exception"; "ExceptionGroup";
    "GeneratorExit"; "KeyboardInterrupt"; "SystemExit";
    "ArithmeticError"; "AssertionError"; "AttributeError"; "BlockingIOError";
    "BrokenPipeError"; "BufferError"; "ChildProcessError";
    "ConnectionAbortedError"; "ConnectionError"; "ConnectionRefusedError";
    "ConnectionResetError"; "EOFError"; "EnvironmentError";
    "FileExistsError"; "FileNotFoundError"; "FloatingPointError"; "IOError";
    "ImportError"; "IndentationError"; "IndexError"; "InterruptedError";
    "IsADirectoryError"; "KeyError"; "LookupError"; "MemoryError";
    "ModuleNotFoundError"; "NameError"; "NotADirectoryError";
    "NotImplementedError"; "OSError"; "OverflowError"; "PermissionError";
    "ProcessLookupError"; "RecursionError"; "ReferenceError"; "RuntimeError";
    "StopAsyncIteration"; "StopIteration"; "SyntaxError"; "SystemError";
    "TabError"; "TimeoutError"; "TypeError"; "UnboundLocalError";
    "UnicodeDecodeError"; "UnicodeEncodeError"; "UnicodeError";
    "UnicodeTranslateError"; "ValueError"; "ZeroDivisionError";
    "BytesWarning"; "DeprecationWarning"; "EncodingWarning"; "FutureWarning";
    "ImportWarning"; "PendingDeprecationWarning"; "ResourceWarning";
    "RuntimeWarning"; "SyntaxWarning"; "UnicodeWarning"; "UserWarning";
    "Warning" ].

Definition mem_name (name : string) (names : list string) : bool :=
  existsb (String.eqb name) names.

(** The namespace of the module as its source leaves it: the names of
    [module_names] and [module_dunders], and no other. *)
Definition source_globals : Globals :=
  fun name =>
    if mem_name name (module_names ++ module_dunders) then Some GObject else None.

(** Reading a global name inside a function: the module namespace, then the
    builtins, then [NameError]. *)
Definition load_global (g : Globals) (name : string) : result global :=
  match g name with
  | Some v => Ok v
  | None =>
      if mem_name name builtin_names then Ok GObject
      else Raise (NameError name)
  end.

(** The expression [_build_connect_kwargs(...)]: the name is looked up, then
    the object found is called. *)
Definition call_build_connect_kwargs (args : HelperArgs) (w : World) : result Kwargs :=
  match load_global (globals w) "_build_connect_kwargs" with
  | Raise e => Raise e
  | Ok (GFunction f) => f args (environ w)
  | Ok GObject => Raise (TypeError "object is not callable")
  end.

(** ** The external collaborators *)

(** What the driver and the pooling library answer to each call, given the
    state of the process at the call.  [None] in an [option exn] answer
    means that the call returned normally. *)
Record Driver : Type := mkDriver {
  (** [psycopg.connect] called with the keywords [kw]: the attributes of
      the new connection. *)
  psycopg_connect : Kwargs -> World -> result ConnAttrs;
  conn_commit : conn_id -> World -> option exn;
  conn_rollback : conn_id -> World -> option exn;
  conn_close : conn_id -> World -> option exn;
  (** [ConnectionPool(...)]. *)
  ConnectionPool_init : PoolArgs -> World -> option exn;
  (** Entering [pool.connection()]: the connection lent, with the attributes
      it has if the process has not seen it before. *)
  pool_enter : pool_id -> World -> result (conn_id * ConnAttrs);
  (** Leaving [pool.connection()], the block having ended with [exc]. *)
  pool_exit : pool_id -> conn_id -> option exn -> World -> option exn;
  conn_cursor : conn_id -> World -> option exn;
  cursor_execute : conn_id -> string -> option (list pyval) -> World -> option exn;
  cursor_fetchone : conn_id -> World -> result (option Row);
  cursor_exit : conn_id -> option exn -> World -> option exn;
}.

(** ** Computations on the module state *)

Definition M (A : Type) : Type := World -> result A * World.

Definition ret {A} (a : A) : M A := fun w => (Ok a, w).

Definition raise {A} (e : exn) : M A := fun w => (Raise e, w).

Definition bind {A B} (m : M A) (k : A -> M B) : M B :=
  fun w =>
    match m w with
    | (Ok a, w') => k a w'
    | (Raise e, w') => (Raise e, w')
    end.

Notation "x <- m ;; k" := (bind m (fun x => k))
  (at level 100, m at next level, right associativity).
Notation "m ;;; k" := (bind m (fun _ => k))
  (at level 100, right associativity).

(** Runs [m] and hands back how it ended, instead of propagating. *)
Definition attempt {A} (m : M A) : M (result A) :=
  fun w => let '(r, w') := m w in (Ok r, w').

(** Goes on the way [o] ended: with its value, or raising its exception. *)
Definition resume {A} (o : result A) : M A :=
  match o with
  | Ok a => ret a
  | Raise e => raise e
  end.

Definition exc_of {A} (o : result A) : option exn :=
  match o with
  | Ok _ => None
  | Raise e => Some e
  end.

(** [try: body / except Exception: handler]. *)
Definition try_except_Exception {A} (body : M A) (handler : exn -> M A) : M A :=
  fun w =>
    match body w with
    | (Raise e, w') => if is_Exception e then handler e w' else (Raise e, w')
    | (Ok a, w') => (Ok a, w')
    end.

(** [try: body / finally: fin]: an exception of [fin] takes the place of
    whatever [body] ended with. *)
Definition try_finally {A} (body : M A) (fin : M unit) : M A :=
  fun w =>
    let '(r, w') := body w in
    match fin w' with
    | (Ok _, w'') => (r, w'')
    | (Raise e, w'') => (Raise e, w'')
    end.

(** A call on an external object that returns nothing of interest. *)
Definition call_unit (ev : event) (answer : World -> option exn) : M unit :=
  fun w =>
    let w' := record ev w in
    match answer w' with
    | None => (Ok tt, w')
    | Some e => (Raise e, w')
    end.

(** A call on an external object that returns a value. *)
Definition call_value {A} (ev : event) (answer : World -> result A) : M A :=
  fun w => let w' := record ev w in (answer w', w').

Definition get_autocommit (c : conn_id) : M bool :=
  fun w => (Ok (autocommit (heap w !!! c)), w).

Definition get_row_factory (c : conn_id) : M RowFactory :=
  fun w => (Ok (row_factory (heap w !!! c)), w).

(** [conn.row_factory = rf]. *)
Definition set_row_factory (c : conn_id) (rf : RowFactory) : M unit :=
  fun w =>
    (Ok tt, set_heap (<[c := mkConn (autocommit (heap w !!! c)) rf]> (heap w)) w).

(** A connection object enters the heap, unless it is there already. *)
Definition adopt (c : conn_id) (attrs : ConnAttrs) : M unit :=
  fun w =>
    match heap w !! c with
    | Some _ => (Ok tt, w)
    | None => (Ok tt, set_heap (<[c := attrs]> (heap w)) w)
    end.

(** Code of a caller, run inside a scope: it works on the connection
    objects and ends normally or with an exception. *)
Definition CallerCode (A : Type) : Type := conn_id -> Heap -> result A * Heap.

Definition caller {A} (f : CallerCode A) : conn_id -> M A :=
  fun c w => let '(r, h) := f c (heap w) in (r, set_heap h w).

(** ** [connect] (lines 41-44) *)

Definition connect (D : Driver) (dict_rows : bool) : M conn_id :=
  let row_factory := if dict_rows then Some dict_row else None in
  fun w =>
    match call_build_connect_kwargs (HRowFactory row_factory) w with
    | Raise e => (Raise e, w)
    | Ok kw =>
        (attrs <- call_value (EConnect kw) (psycopg_connect D kw) ;;
         fun w1 =>
           let c := fresh (dom (heap w1)) in
           (Ok c, set_heap (<[c := attrs]> (heap w1)) w1)) w
    end.

(** ** [get_pool] (lines 47-72) *)

Definition pool_unavailable_message : string :=
  String.append
    "psycopg_pool is required for connection pooling. "
    "Install the 'psycopg-pool' package or set SPEEDLIMIT_DISABLE_POOLING=1.".

(** Lines 59-60. *)
Definition pool_sizes (env : Environ) : result (Z * Z) :=
  match _env_int env "SPEEDLIMIT_POOL_MIN_SIZE" 1 with
  | Raise e => Raise e
  | Ok lo =>
      let min_size := Z.max 1 lo in
      match _env_int env "SPEEDLIMIT_POOL_MAX_SIZE" 5 with
      | Raise e => Raise e
      | Ok hi =>
          let max_size := Z.max min_size hi in
          Ok (min_size, max_size)
      end
  end.

(** Lines 62-71: the arguments of the constructor call. *)
Definition pool_args (min_size max_size : Z) (kw : Kwargs) : PoolArgs :=
  let conninfo := default VNone (kw !! "conninfo") in
  let connect_kwargs := delete "conninfo" kw in
  if truthy conninfo then
    mkPoolArgs (Some conninfo) min_size max_size
      (if bool_decide (connect_kwargs = ∅) then None else Some (Some connect_kwargs))
  else
    mkPoolArgs None min_size max_size
      (Some (if bool_decide (connect_kwargs = ∅) then None else Some connect_kwargs)).

(** Lines 59-71: the body of the inner [if _POOL is None]. *)
Definition build_pool (D : Driver) : M unit :=
  fun w =>
    match pool_sizes (environ w) with
    | Raise e => (Raise e, w)
    | Ok (min_size, max_size) =>
        match call_build_connect_kwargs HNoArgs w with
        | Raise e => (Raise e, w)
        | Ok kw =>
            let args := pool_args min_size max_size kw in
            (call_unit (EPoolNew args) (ConnectionPool_init D args) ;;;
             fun w1 =>
               (Ok tt, set_POOL (Some (pools_built w1))
                         (set_pools_built (S (pools_built w1)) w1))) w
        end
    end.

(** [get_pool()], one thread running alone: the lock of line 57 is free and
    is released on every way out of the block, so that it leaves no mark
    here; [Threads] below runs the same lines under interleaving. *)
Definition get_pool (D : Driver) : M (option pool_id) :=
  fun w =>
    if negb (pool_lib w) then (Raise (RuntimeError pool_unavailable_message), w)
    else
      ((fun w1 =>
          match _POOL w1 with             (* line 56 *)
          | Some _ => (Ok tt, w1)
          | None =>                       (* line 57: the lock is taken *)
              match _POOL w1 with         (* line 58 *)
              | Some _ => (Ok tt, w1)
              | None => build_pool D w1
              end
          end) ;;;
       fun w2 => (Ok (_POOL w2), w2)) w.        (* line 72 *)

(** ** [connection_scope] (lines 75-107) *)

(** Line 79. *)
Definition disable_pooling (env : Environ) : bool :=
  String.eqb (default "0" (env !! "SPEEDLIMIT_DISABLE_POOLING")) "1".

(** Lines 85-90: what the generator does once the block that received the
    connection has ended with [o]. *)
Definition unpooled_resume {A} (D : Driver) (conn : conn_id) (o : result A) : M A :=
  try_finally
    (try_except_Exception
       (r <- resume o ;;
        call_unit (ECommit conn) (conn_commit D conn) ;;;
        ret r)
       (fun e =>
          call_unit (ERollback conn) (conn_rollback D conn) ;;;
          raise e))
    (call_unit (EClose conn) (conn_close D conn)).

(** Lines 82-91. *)
Definition unpooled_scope {A} (D : Driver) (dict_rows : bool)
    (block : conn_id -> M A) : M A :=
  conn <- connect D dict_rows ;;
  o <- attempt (block conn) ;;
  unpooled_resume D conn o.

(** Lines 100-107. *)
Definition pooled_resume {A} (D : Driver) (conn : conn_id)
    (previous_row_factory : RowFactory) (o : result A) : M A :=
  try_finally
    (try_except_Exception
       (r <- resume o ;;
        ac <- get_autocommit conn ;;
        (if negb ac then call_unit (ECommit conn) (conn_commit D conn) else ret tt) ;;;
        ret r)
       (fun e =>
          ac <- get_autocommit conn ;;
          (if negb ac then call_unit (ERollback conn) (conn_rollback D conn) else ret tt) ;;;
          raise e))
    (set_row_factory conn previous_row_factory).

(** [with pool.connection() as conn: block].  The context manager of the
    pooling library lends a connection on entry and takes it back on exit;
    it lets the exception of the block through, or raises one of its own. *)
Definition with_pool_connection {A} (D : Driver) (pool : option pool_id)
    (block : conn_id -> M A) : M A :=
  match pool with
  | None => raise (AttributeError "'NoneType' object has no attribute 'connection'")
  | Some p =>
      lent <- call_value (EPoolEnter p) (pool_enter D p) ;;
      adopt (fst lent) (snd lent) ;;;
      o <- attempt (block (fst lent)) ;;
      call_unit (EPoolExit p (fst lent) (exc_of o))
                (pool_exit D p (fst lent) (exc_of o)) ;;;
      resume o
  end.

(** Lines 93-107. *)
Definition pooled_scope {A} (D : Driver) (dict_rows : bool)
    (block : conn_id -> M A) : M A :=
  pool <- get_pool D ;;
  with_pool_connection D pool (fun conn =>
    previous_row_factory <- get_row_factory conn ;;
    (if dict_rows then set_row_factory conn dict_row else ret tt) ;;;
    o <- attempt (block conn) ;;
    pooled_resume D conn previous_row_factory o).

(** [with connection_scope(dict_rows=...) as conn: block]. *)
Definition connection_scope {A} (D : Driver) (dict_rows : bool)
    (block : conn_id -> M A) : M A :=
  fun w =>
    if disable_pooling (environ w) || negb (pool_lib w)
    then unpooled_scope D dict_rows block w
    else pooled_scope D dict_rows block w.

(** ** [fetch_value] (lines 110-116) *)

(** [with conn.cursor() as cur: block]; the cursor is named after its
    connection. *)
Definition with_cursor {A} (D : Driver) (conn : conn_id)
    (block : conn_id -> M A) : M A :=
  call_unit (ECursor conn) (conn_cursor D conn) ;;;
  o <- attempt (block conn) ;;
  call_unit (ECursorExit conn (exc_of o)) (cursor_exit D conn (exc_of o)) ;;;
  resume o.

(** [if row]: [None] and the empty containers are false. *)
Definition row_truthy (row : option Row) : bool :=
  match row with
  | None => false
  | Some (TupleRow cols) => negb (bool_decide (cols = []))
  | Some (DictRow cols) => negb (bool_decide (cols = []))
  end.

(** [row[0]]. *)
Definition row_first (row : option Row) : result pyval :=
  match row with
  | Some (TupleRow (v :: _)) => Ok v
  | Some (TupleRow []) => Raise (IndexError "tuple index out of range")
  | Some (DictRow _) => Raise (KeyError "0")
  | None => Raise (TypeError "'NoneType' object is not subscriptable")
  end.

Definition fetch_value (D : Driver) (query : string)
    (params : option (list pyval)) : M pyval :=
  connection_scope D false (fun conn =>
    with_cursor D conn (fun cur =>
      call_unit (EExecute cur query params) (cursor_execute D cur query params) ;;;
      row <- call_value (EFetchone cur) (cursor_fetchone D cur) ;;
      if row_truthy row then resume (row_first row) else ret VNone)).

(** ** The scope as a context manager *)

(** What the generator of [connection_scope] holds while it is suspended at
    its [yield]: the connection, and on the pooled path the pool and the row
    factory saved at line 95. *)
Inductive Handle : Type :=
| Unpooled (conn : conn_id)
| Pooled (pool : pool_id) (conn : conn_id) (previous_row_factory : RowFactory).

Definition handle_conn (h : Handle) : conn_id :=
  match h with
  | Unpooled conn => conn
  | Pooled _ conn _ => conn
  end.

(** Entering the [with] statement: the generator runs up to its [yield]
    (lines 79-82, or 79-81 and 93-97). *)
Definition scope_enter (D : Driver) (dict_rows : bool) : M Handle :=
  fun w =>
    if disable_pooling (environ w) || negb (pool_lib w) then
      (conn <- connect D dict_rows ;;
       ret (Unpooled conn)) w
    else
      (pool <- get_pool D ;;
       match pool with
       | None => raise (AttributeError "'NoneType' object has no attribute 'connection'")
       | Some p =>
           lent <- call_value (EPoolEnter p) (pool_enter D p) ;;
           adopt (fst lent) (snd lent) ;;;
           previous_row_factory <- get_row_factory (fst lent) ;;
           (if dict_rows then set_row_factory (fst lent) dict_row else ret tt) ;;;
           ret (Pooled p (fst lent) previous_row_factory)
       end) w.

(** Leaving the [with] statement, its block having ended with [o]: the
    generator runs from its [yield] to its end (lines 85-91, or 100-107 and
    then the exit of [pool.connection()]). *)
Definition scope_leave {A} (D : Driver) (h : Handle) (o : result A) : M A :=
  match h with
  | Unpooled conn => unpooled_resume D conn o
  | Pooled p conn previous_row_factory =>
      o' <- attempt (pooled_resume D conn previous_row_factory o) ;;
      call_unit (EPoolExit p conn (exc_of o')) (pool_exit D p conn (exc_of o')) ;;;
      resume o'
  end.

(** ** Kinds of events *)

Definition is_commit_or_rollback (ev : event) : bool :=
  match ev with
  | ECommit _ | ERollback _ => true
  | _ => false
  end.

Definition is_pool_event (ev : event) : bool :=
  match ev with
  | EPoolNew _ | EPoolEnter _ | EPoolExit _ _ _ => true
  | _ => false
  end.

Definition is_connect_or_close (ev : event) : bool :=
  match ev with
  | EConnect _ | EClose _ => true
  | _ => false
  end.

(** The calls made on the way into a scope. *)
Definition is_entry_event (ev : event) : bool :=
  match ev with
  | EConnect _ | EPoolNew _ | EPoolEnter _ => true
  | _ => false
  end.

(** The test of line 81, negated: the scope goes to the shared pool. *)
Definition uses_pool (w : World) : bool :=
  negb (disable_pooling (environ w) || negb (pool_lib w)).

(** Whether leaving the scope after a failure calls [rollback]: always on
    the unpooled path (line 87), unless autocommit is on at that moment on
    the pooled path (lines 103-104). *)
Definition rollback_due (h : Handle) (w : World) : bool :=
  match h with
  | Unpooled _ => true
  | Pooled _ conn _ => negb (autocommit (heap w !!! conn))
  end.



(** Lines 113-116: the block that [fetch_value] runs inside its scope. *)
Definition fetch_value_block (D : Driver) (query : string)
    (params : option (list pyval)) (conn : conn_id) : M pyval :=
  with_cursor D conn (fun cur =>
    call_unit (EExecute cur query params) (cursor_execute D cur query params) ;;;
    row <- call_value (EFetchone cur) (cursor_fetchone D cur) ;;
    if row_truthy row then resume (row_first row) else ret VNone).


(** The driver and the pool never fail when the module winds a scope up. *)
Definition cleanup_succeeds (D : Driver) : Prop :=
  ∀ (c : conn_id) (w : World),
    conn_commit D c w = None ∧
    conn_rollback D c w = None ∧
    conn_close D c w = None ∧
    ∀ (p : pool_id) (exc : option exn), pool_exit D p c exc w = None.

(** The cursor of the driver never fails, whatever it is asked. *)
Definition cursor_succeeds (D : Driver) : Prop :=
  ∀ (c : conn_id) (w : World),
    conn_cursor D c w = None ∧
    (∀ query params, cursor_execute D c query params w = None) ∧
    ∀ exc, cursor_exit D c exc w = None.

(** The call by which a scope gives its connection up: [close] on the
    unpooled path (line 90), the exit of [pool.connection()] on the pooled
    one (line 94), which is told how the block inside it ended. *)
Definition release_event (h : Handle) (exc : option exn) : event :=
  match h with
  | Unpooled conn => EClose conn
  | Pooled p conn _ => EPoolExit p conn exc
  end.

(** What that call answers. *)
Definition release_answer (D : Driver) (h : Handle) (exc : option exn)
    (w : World) : option exn :=
  match h with
  | Unpooled conn => conn_close D conn w
  | Pooled p conn _ => pool_exit D p conn exc w
  end.

(** The state in which a scope gives its connection up, [w] being the state
    that its [except] clause left: on the pooled path line 107 has set the
    row factory back by then. *)
Definition before_release (h : Handle) (w : World) : World :=
  match h with
  | Unpooled _ => w
  | Pooled _ c prev =>
      set_heap (<[c := mkConn (autocommit (heap w !!! c)) prev]> (heap w)) w
  end.

Definition is_pool_new (ev : event) : bool :=
  match ev with
  | EPoolNew _ => true
  | _ => false
  end.

(** [rollback] and the call that gives the connection up never fail. *)
Definition rollback_and_release_succeed (D : Driver) : Prop :=
  ∀ (c : conn_id) (w : World),
    conn_rollback D c w = None ∧
    conn_close D c w = None ∧
    ∀ (p : pool_id) (exc : option exn), pool_exit D p c exc w = None.

(** ** Three sentences of the specification, as it words them *)

(** "A failure raised inside the scope is re-raised unchanged, never
    replaced": whatever the driver does, a scope left on a failure [e] ends
    by raising that same [e]. *)
Definition reraises_unchanged : Prop :=
  ∀ (D : Driver) (h : Handle) (e : exn) (w : World),
    is_Exception e = true →
    fst (scope_leave (A:=unit) D h (Raise e) w) = Raise e.

(** "The autocommit flag, if set, suppresses explicit commit and rollback",
    on the unpooled path as on the pooled one. *)
Definition autocommit_suppresses_on_both_paths : Prop :=
  ∀ (D : Driver) (h : Handle) (o : result unit) (w : World) (evs : list event),
    autocommit (heap w !!! handle_conn h) = true →
    trace (snd (scope_leave D h o w)) = trace w ++ evs →
    Forall (λ ev, is_commit_or_rollback ev = false) evs.



(** The state of the module once it has been imported (lines 27-28): no
    pool, no connection, nothing called yet. *)
Definition module_state (env : Environ) (g : Globals) (lib : bool) : World :=
  mkWorld env g lib None 0 ∅ [].

(** ** [get_pool] under interleaving *)

(** Threads run [get_pool] one shared-state access at a time; between two
    such accesses any other thread may run.  The lock of line 28 is taken at
    line 57 and released on every way out of the [with] block. *)
Module Threads.

Definition tid := nat.

(** Where a thread stands in [get_pool]. *)
Inductive pc : Type :=
| PStart                          (* line 49: ConnectionPool is None? *)
| PFastCheck                      (* line 56: first test of _POOL *)
| PAcquire                        (* line 57: waits for _POOL_LOCK *)
| PSecondCheck                    (* line 58: second test of _POOL *)
| PBuild                          (* lines 59-63: sizes and keywords *)
| PConstruct (args : PoolArgs)    (* lines 68/71: ConnectionPool(...) *)
| PAssign (p : pool_id)           (* lines 68/71: the store into _POOL *)
| PRelease (pending : option exn) (* end of the with block *)
| PReturn.                        (* line 72: return _POOL *)

(** How a call ended, by thread, in the order of completion. *)
Definition Log := list (tid * result (option pool_id)).

Record State : Type := mkState {
  shared : World;
  (** The thread that holds [_POOL_LOCK], if any. *)
  lock : option tid;
  (** Where each running thread stands, and how many further calls it will
      make once the current one is over. *)
  threads : gmap tid (pc * nat);
  log : Log;
}.

Definition goto (t : tid) (p : pc) (more : nat) (s : State) : State :=
  mkState (shared s) (lock s) (<[t := (p, more)]> (threads s)) (log s).

Definition with_shared (w : World) (s : State) : State :=
  mkState w (lock s) (threads s) (log s).

Definition with_lock (l : option tid) (s : State) : State :=
  mkState (shared s) l (threads s) (log s).

(** The current call of [t] is over: it is logged, and the thread starts
    its next call or leaves. *)
Definition finish (t : tid) (more : nat) (r : result (option pool_id))
    (s : State) : State :=
  mkState (shared s) (lock s)
    (match more with
     | O => delete t (threads s)
     | S more' => <[t := (PStart, more')]> (threads s)
     end)
    (log s ++ [(t, r)]).

(** One step of thread [t]; [None] when [t] is not running or waits for the
    lock. *)
Definition step (D : Driver) (t : tid) (s : State) : option State :=
  match threads s !! t with
  | None => None
  | Some (p, more) =>
      let w := shared s in
      match p with
      | PStart =>
          if negb (pool_lib w)
          then Some (finish t more (Raise (RuntimeError pool_unavailable_message)) s)
          else Some (goto t PFastCheck more s)
      | PFastCheck =>
          match _POOL w with
          | None => Some (goto t PAcquire more s)
          | Some _ => Some (goto t PReturn more s)
          end
      | PAcquire =>
          match lock s with
          | None => Some (goto t PSecondCheck more (with_lock (Some t) s))
          | Some _ => None
          end
      | PSecondCheck =>
          match _POOL w with
          | None => Some (goto t PBuild more s)
          | Some _ => Some (goto t (PRelease None) more s)
          end
      | PBuild =>
          match pool_sizes (environ w) with
          | Raise e => Some (goto t (PRelease (Some e)) more s)
          | Ok (min_size, max_size) =>
              match call_build_connect_kwargs HNoArgs w with
              | Raise e => Some (goto t (PRelease (Some e)) more s)
              | Ok kw =>
                  Some (goto t (PConstruct (pool_args min_size max_size kw)) more s)
              end
          end
      | PConstruct args =>
          let w' := record (EPoolNew args) w in
          match ConnectionPool_init D args w' with
          | Some e => Some (goto t (PRelease (Some e)) more (with_shared w' s))
          | None =>
              Some (goto t (PAssign (pools_built w')) more
                      (with_shared (set_pools_built (S (pools_built w')) w') s))
          end
      | PAssign p =>
          Some (goto t (PRelease None) more (with_shared (set_POOL (Some p) w) s))
      | PRelease pending =>
          match pending with
          | None => Some (goto t PReturn more (with_lock None s))
          | Some e => Some (finish t more (Raise e) (with_lock None s))
          end
      | PReturn => Some (finish t more (Ok (_POOL w)) s)
      end
  end.

(** Runs a schedule: the threads step in the order given; a thread that
    cannot step is passed over. *)
Fixpoint exec (D : Driver) (schedule : list tid) (s : State) : State :=
  match schedule with
  | [] => s
  | t :: rest => exec D rest (default s (step D t s))
  end.

(** Every thread of [calls] is about to make its first call; [calls] gives
    the number of calls each of them makes after that one. *)
Definition init (w : World) (calls : gmap tid nat) : State :=
  mkState w None ((fun more => (PStart, more)) <$> calls) [].

End Threads.

(** ** What the interleaved runs keep true *)

Module ThreadsInv.
Import Threads.

(** The thread is inside the [with _POOL_LOCK] block. *)
Definition critical (p : pc) : bool :=
  match p with
  | PSecondCheck | PBuild | PConstruct _ | PAssign _ | PRelease _ => true
  | _ => false
  end.

(** The thread is inside the inner [if _POOL is None], before any pool came
    out of the constructor, or is leaving that block on an exception. *)
Definition building (p : pc) : bool :=
  match p with
  | PBuild | PConstruct _ | PRelease (Some _) => true
  | _ => false
  end.

(** The thread is past the block and about to return [_POOL], or leaves
    the block without an exception. *)
Definition returning (p : pc) : bool :=
  match p with
  | PRelease None | PReturn => true
  | _ => false
  end.

(** No call has raised after a call has returned. *)
Definition settled (l : Log) : Prop :=
  ∀ i j ti vi tj ej,
    l !! i = Some (ti, Ok vi) → l !! j = Some (tj, Raise ej) → (j < i)%nat.

Record Inv (s : State) : Prop := mkInv {
  inv_lock : ∀ t p n,
    threads s !! t = Some (p, n) → critical p = true → lock s = Some t;
  inv_pool : ∀ p,
    _POOL (shared s) = Some p → p = 0%nat ∧ pools_built (shared s) = 1%nat;
  inv_none :
    _POOL (shared s) = None →
    pools_built (shared s) = 0%nat ∨
    (pools_built (shared s) = 1%nat ∧ ∃ t n, threads s !! t = Some (PAssign 0, n));
  inv_assign : ∀ t p n,
    threads s !! t = Some (PAssign p, n) →
    p = 0%nat ∧ _POOL (shared s) = None ∧ pools_built (shared s) = 1%nat;
  inv_build : ∀ t p n,
    threads s !! t = Some (p, n) → building p = true →
    _POOL (shared s) = None ∧ pools_built (shared s) = 0%nat;
  inv_return : ∀ t p n,
    threads s !! t = Some (p, n) → returning p = true →
    _POOL (shared s) = Some 0%nat;
  inv_lib :
    pool_lib (shared s) = false →
    (∀ t p n, threads s !! t = Some (p, n) → p = PStart) ∧
    ∀ t v, (t, Ok v) ∉ log s;
  inv_returned : ∀ t v,
    (t, Ok v) ∈ log s → v = Some 0%nat ∧ _POOL (shared s) = Some 0%nat;
  inv_settled : settled (log s);
}.

End ThreadsInv.

(** ** Progress of the interleaved runs *)

Module ThreadsProgress.
Import Threads ThreadsInv.

(** The lock is held by a thread that is inside the [with] block, and by
    no other. *)
Record LockInv (s : State) : Prop := mkLockInv {
  lock_of_critical : ∀ t p n,
    threads s !! t = Some (p, n) → critical p = true → lock s = Some t;
  lock_holder_critical : ∀ t,
    lock s = Some t → ∃ p n, threads s !! t = Some (p, n) ∧ critical p = true;
}.

(** The steps that the current call can still take, at most. *)
Definition rank (p : pc) : nat :=
  match p with
  | PStart => 9%nat
  | PFastCheck => 8%nat
  | PAcquire => 7%nat
  | PSecondCheck => 6%nat
  | PBuild => 5%nat
  | PConstruct _ => 4%nat
  | PAssign _ => 3%nat
  | PRelease _ => 2%nat
  | PReturn => 1%nat
  end.

(** The steps that a thread can still take: those of its current call and
    nine for each call to come. *)
Definition weight (x : pc * nat) : nat := (9 * snd x + rank (fst x))%nat.

Definition work_of (m : gmap tid (pc * nat)) : nat :=
  map_fold (fun _ x acc => (weight x + acc)%nat) 0%nat m.

Definition work (s : State) : nat := work_of (threads s).

(** The steps of a schedule that are taken, the others being passed over. *)
Fixpoint effective (D : Driver) (schedule : list tid) (s : State) : nat :=
  match schedule with
  | [] => 0%nat
  | t :: rest =>
      match step D t s with
      | Some s' => S (effective D rest s')
      | None => effective D rest s
      end
  end.

(** The calls of thread [t] that are over. *)
Definition answered (t : tid) (l : list (tid * result (option pool_id))) : nat :=
  length (filter (fun x => fst x = t) l).

(** The calls of thread [t] that are running or still to come. *)
Definition pending (t : tid) (s : State) : nat :=
  match threads s !! t with
  | Some (_, more) => S more
  | None => 0%nat
  end.

(** The calls that thread [t] was started for. *)
Definition requested (t : tid) (calls : gmap tid nat) : nat :=
  match calls !! t with
  | Some more => S more
  | None => 0%nat
  end.

(** The calls that all the threads were started for. *)
Definition total_calls (calls : gmap tid nat) : nat :=
  map_fold (fun _ more acc => (S more + acc)%nat) 0%nat calls.

End ThreadsProgress.

(** ** Concrete collaborators and namespaces, for the examples *)

Module Sample.

(** A driver and a pool that never fail.  The pool lends connection 7,
    whose rows are tuples; a query answers the row [(42, "x")]. *)
Definition ok_driver : Driver :=
  mkDriver
    (fun _ _ => Ok (mkConn false tuple_row))
    (fun _ _ => None) (fun _ _ => None) (fun _ _ => None)
    (fun _ _ => None)
    (fun _ _ => Ok (7%nat, mkConn false tuple_row))
    (fun _ _ _ _ => None)
    (fun _ _ => None)
    (fun _ _ _ _ => None)
    (fun _ _ => Ok (Some (TupleRow [VInt 42; VStr "x"])))
    (fun _ _ _ => None).


(** As [ok_driver], with a [rollback] that fails (a lost connection). *)
Definition broken_rollback_driver : Driver :=
  mkDriver
    (psycopg_connect ok_driver) (conn_commit ok_driver)
    (fun _ _ => Some (DriverError 2))
    (conn_close ok_driver)
    (ConnectionPool_init ok_driver) (pool_enter ok_driver)
    (pool_exit ok_driver) (conn_cursor ok_driver)
    (cursor_execute ok_driver) (cursor_fetchone ok_driver)
    (cursor_exit ok_driver).

(** As [ok_driver], with a [commit] that fails. *)
Definition broken_commit_driver : Driver :=
  mkDriver
    (psycopg_connect ok_driver)
    (fun _ _ => Some (DriverError 3))
    (conn_rollback ok_driver) (conn_close ok_driver)
    (ConnectionPool_init ok_driver) (pool_enter ok_driver)
    (pool_exit ok_driver) (conn_cursor ok_driver)
    (cursor_execute ok_driver) (cursor_fetchone ok_driver)
    (cursor_exit ok_driver).

(** As [ok_driver], with an [execute] that fails (a syntax error in the
    query, say). *)
Definition broken_execute_driver : Driver :=
  mkDriver
    (psycopg_connect ok_driver) (conn_commit ok_driver)
    (conn_rollback ok_driver) (conn_close ok_driver)
    (ConnectionPool_init ok_driver) (pool_enter ok_driver)
    (pool_exit ok_driver) (conn_cursor ok_driver)
    (fun _ _ _ _ => Some (DriverError 4))
    (cursor_fetchone ok_driver)
    (cursor_exit ok_driver).

(** As [ok_driver], with a pool constructor that fails. *)
Definition broken_pool_driver : Driver :=
  mkDriver
    (psycopg_connect ok_driver) (conn_commit ok_driver)
    (conn_rollback ok_driver) (conn_close ok_driver)
    (fun _ _ => Some (DriverError 5))
    (pool_enter ok_driver)
    (pool_exit ok_driver) (conn_cursor ok_driver)
    (cursor_execute ok_driver) (cursor_fetchone ok_driver)
    (cursor_exit ok_driver).

(** As [ok_driver], with a query that answers a row without columns. *)
Definition no_column_driver : Driver :=
  mkDriver
    (psycopg_connect ok_driver) (conn_commit ok_driver)
    (conn_rollback ok_driver) (conn_close ok_driver)
    (ConnectionPool_init ok_driver) (pool_enter ok_driver)
    (pool_exit ok_driver) (conn_cursor ok_driver)
    (cursor_execute ok_driver)
    (fun _ _ => Ok (Some (TupleRow [])))
    (cursor_exit ok_driver).


(** A [_build_connect_kwargs] in the way the module docstring describes it:
    the connection string of SPEEDLIMIT_DATABASE_URL when it is set, the
    host otherwise, and the row factory when one is asked for. *)
Definition build_connect_kwargs (args : HelperArgs) (env : Environ) : result Kwargs :=
  let base : Kwargs :=
    match env !! "SPEEDLIMIT_DATABASE_URL" with
    | Some url => {[ "conninfo" := VStr url ]}
    | None => {[ "host" := VStr (default "localhost" (env !! "PGHOST")) ]}
    end in
  match args with
  | HRowFactory (Some rf) => Ok (<[ "row_factory" := VRowFactory rf ]> base)
  | _ => Ok base
  end.

(** The namespace of the module with that function bound in it. *)
Definition patched_globals : Globals :=
  fun name =>
    if String.eqb name "_build_connect_kwargs" then Some (GFunction build_connect_kwargs)
    else source_globals name.

(** The module just imported, the pooling library being there. *)
Definition pooled_world : World :=
  module_state ∅ patched_globals true.

(** The same, pooling being disabled by the environment. *)
Definition unpooled_world : World :=
  module_state {[ "SPEEDLIMIT_DISABLE_POOLING" := "1" ]} patched_globals true.

(** The module just imported in an environment that gives a connection
    string and the two pool sizes. *)
Definition url_world : World :=
  module_state
    {[ "SPEEDLIMIT_DATABASE_URL" := "postgresql://localhost/speedlimit";
       "SPEEDLIMIT_POOL_MIN_SIZE" := "2";
       "SPEEDLIMIT_POOL_MAX_SIZE" := "10" ]}
    patched_globals true.

(** A process in which connection 0 is in autocommit mode. *)
Definition autocommit_world : World :=
  mkWorld ∅ patched_globals true None 0 {[ 0%nat := mkConn true tuple_row ]} [].

(** Caller code that turns autocommit on and ends normally. *)
Definition set_autocommit : CallerCode unit :=
  fun c h => (Ok tt, <[c := mkConn true (row_factory (h !!! c))]> h).

(** Caller code that fails. *)
Definition failing : CallerCode unit :=
  fun c h => (Raise (CallerError 1), h).

(** Caller code that does nothing. *)
Definition idle : CallerCode unit :=
  fun c h => (Ok tt, h).

(** Caller code that reports the row factory of its connection. *)
Definition observe : CallerCode RowFactory :=
  fun c h => (Ok (row_factory (h !!! c)), h).

(** Two threads that race through [get_pool]: both find [_POOL] empty at
    line 56, thread 1 takes the lock and builds the pool while thread 2
    waits at line 57, then thread 2 finds the pool at line 58. *)
Definition racing_schedule : list Threads.tid :=
  [1; 2; 1; 2; 1; 2; 1; 1; 1; 1; 2; 1; 2; 2; 1; 2; 2]%nat.

Definition two_threads : gmap Threads.tid nat :=
  {[ 1%nat := 0%nat; 2%nat := 0%nat ]}.

End Sample.

(** * Properties *)

(** ** The environment reader *)

Lemma _env_int_total (env : Environ) (name : string) (default : Z) :
  ∃ n, _env_int env name default = Ok n.
Proof.
  unfold _env_int.
  destruct (env !! name) as [raw|]; [destruct (PyInt.py_int raw)|]; eauto.
Qed.

Lemma _env_int_unset (env : Environ) (name : string) (default : Z) :
  env !! name = None → _env_int env name default = Ok default.
Proof. intros H. unfold _env_int. by rewrite H. Qed.

Lemma _env_int_malformed (env : Environ) (name raw : string) (default : Z) :
  env !! name = Some raw → PyInt.py_int raw = None →
  _env_int env name default = Ok default.
Proof. intros H1 H2. unfold _env_int. by rewrite H1, H2. Qed.

(** C7: when the variable is absent, or when its value is not accepted by
    [int], [_env_int] returns the default it was given, and it raises
    nothing; for the two pool-size variables the defaults are 1 and 5. *)
Theorem env_int_falls_back_to_default (env : Environ) (name : string) (default : Z) :
  (env !! name = None ∨
   ∃ raw, env !! name = Some raw ∧ PyInt.py_int raw = None) →
  _env_int env name default = Ok default.
Proof.
  intros [H | (raw & H1 & H2)].
  - by apply _env_int_unset.
  - by eapply _env_int_malformed.
Qed.

Lemma env_int_falls_back_to_default_witness :
  ((({[ "SPEEDLIMIT_POOL_MAX_SIZE" := "five" ]} : Environ)
      !! "SPEEDLIMIT_POOL_MAX_SIZE" = None) ∨
   ∃ raw, ({[ "SPEEDLIMIT_POOL_MAX_SIZE" := "five" ]} : Environ)
            !! "SPEEDLIMIT_POOL_MAX_SIZE" = Some raw ∧
          PyInt.py_int raw = None) ∧
  _env_int {[ "SPEEDLIMIT_POOL_MAX_SIZE" := "five" ]} "SPEEDLIMIT_POOL_MAX_SIZE" 5 = Ok 5.
Proof.
  assert (H : ({[ "SPEEDLIMIT_POOL_MAX_SIZE" := "five" ]} : Environ)
                !! "SPEEDLIMIT_POOL_MAX_SIZE" = None ∨
              ∃ raw, ({[ "SPEEDLIMIT_POOL_MAX_SIZE" := "five" ]} : Environ)
                       !! "SPEEDLIMIT_POOL_MAX_SIZE" = Some raw ∧
                     PyInt.py_int raw = None).
  { right. exists "five". split; reflexivity. }
  split; [exact H|].
  exact (env_int_falls_back_to_default _ "SPEEDLIMIT_POOL_MAX_SIZE" 5 H).
Defined.

Example _env_int_reads_value :
  _env_int {[ "SPEEDLIMIT_POOL_MIN_SIZE" := " 12 " ]} "SPEEDLIMIT_POOL_MIN_SIZE" 1 = Ok 12.
Proof. reflexivity. Qed.

Example _env_int_unset_example :
  _env_int ∅ "SPEEDLIMIT_POOL_MIN_SIZE" 1 = Ok 1.
Proof. reflexivity. Qed.

(** ** Pool sizes *)

Lemma pool_sizes_bounds (env : Environ) :
  ∃ min_size max_size,
    pool_sizes env = Ok (min_size, max_size) ∧ 1 ≤ min_size ∧ min_size ≤ max_size.
Proof.
  unfold pool_sizes.
  destruct (_env_int_total env "SPEEDLIMIT_POOL_MIN_SIZE" 1) as [lo ->].
  destruct (_env_int_total env "SPEEDLIMIT_POOL_MAX_SIZE" 5) as [hi ->].
  eexists _, _. split; [reflexivity|]. lia.
Qed.

Lemma pool_args_sizes (min_size max_size : Z) (kw : Kwargs) :
  pa_min_size (pool_args min_size max_size kw) = min_size ∧
  pa_max_size (pool_args min_size max_size kw) = max_size.
Proof. unfold pool_args. by destruct (truthy _). Qed.

(** What [build_pool] leaves behind: nothing when the sizes or the keywords
    could not be had, one constructor call otherwise, and a pool only when
    that call returned. *)
Lemma build_pool_cases (D : Driver) (w : World) :
  (∃ e, build_pool D w = (Raise e, w)) ∨
  (∃ min_size max_size kw,
      pool_sizes (environ w) = Ok (min_size, max_size) ∧
      call_build_connect_kwargs HNoArgs w = Ok kw ∧
      let args := pool_args min_size max_size kw in
      let w1 := record (EPoolNew args) w in
      (∃ e, ConnectionPool_init D args w1 = Some e ∧
            build_pool D w = (Raise e, w1)) ∨
      (ConnectionPool_init D args w1 = None ∧
       build_pool D w =
         (Ok tt, set_POOL (Some (pools_built w))
                   (set_pools_built (S (pools_built w)) w1)))).
Proof.
  unfold build_pool.
  destruct (pool_sizes (environ w)) as [[mn mx]|e]; [|left; eauto].
  destruct (call_build_connect_kwargs HNoArgs w) as [kw|e]; [|left; eauto].
  right. exists mn, mx, kw. split; [done|]. split; [done|]. simpl.
  unfold bind, call_unit.
  destruct (ConnectionPool_init D _ _) as [e|] eqn:E; [left|right]; eauto.
Qed.

(** What [get_pool] leaves behind, case by case. *)
Lemma get_pool_cases (D : Driver) (w : World) :
  (pool_lib w = false ∧
   get_pool D w = (Raise (RuntimeError pool_unavailable_message), w)) ∨
  (pool_lib w = true ∧ ∃ p, _POOL w = Some p ∧ get_pool D w = (Ok (Some p), w)) ∨
  (pool_lib w = true ∧ _POOL w = None ∧
   ∃ r w', build_pool D w = (r, w') ∧
     match r with
     | Ok _ => get_pool D w = (Ok (_POOL w'), w')
     | Raise e => get_pool D w = (Raise e, w')
     end).
Proof.
  unfold get_pool.
  destruct (pool_lib w) eqn:L; simpl; [|left; done].
  right. destruct (_POOL w) as [p|] eqn:P.
  - left. split; [done|]. exists p. split; [done|].
    unfold bind. rewrite P. by rewrite P.
  - right. split; [done|]. split; [done|].
    unfold bind. rewrite P.
    destruct (build_pool D w) as [[[]|e] w'] eqn:B; eexists _, _; (split; [reflexivity|]); done.
Qed.

(** A call of [get_pool] records nothing, or one constructor call whose
    sizes are those of [pool_sizes]. *)
Lemma get_pool_trace (D : Driver) (w : World) :
  trace (snd (get_pool D w)) = trace w ∨
  ∃ args, trace (snd (get_pool D w)) = trace w ++ [EPoolNew args] ∧
          pool_sizes (environ w) = Ok (pa_min_size args, pa_max_size args).
Proof.
  destruct (get_pool_cases D w) as [[_ ->] | [(_ & p & _ & ->) | (_ & _ & r & w' & B & G)]];
    [by left | by left |].
  destruct (build_pool_cases D w) as [[e B'] | (mn & mx & kw & Hs & _ & Hc)].
  - rewrite B' in B. injection B as <- <-. rewrite G. by left.
  - destruct (pool_args_sizes mn mx kw) as [Hmn Hmx].
    right. exists (pool_args mn mx kw).
    rewrite Hmn, Hmx.
    destruct Hc as [(e & _ & B') | [_ B']]; rewrite B' in B; injection B as <- <-;
      rewrite G; done.
Qed.

(** C6: whatever the environment holds, the two sizes come out with
    [1 <= min_size <= max_size]; and a call of [get_pool] records at most
    one constructor call, made with such sizes. *)
Theorem pool_sizes_valid (D : Driver) (w : World) :
  (∃ min_size max_size,
      pool_sizes (environ w) = Ok (min_size, max_size) ∧
      1 ≤ min_size ∧ min_size ≤ max_size) ∧
  (trace (snd (get_pool D w)) = trace w ∨
   ∃ args, trace (snd (get_pool D w)) = trace w ++ [EPoolNew args] ∧
           pool_sizes (environ w) = Ok (pa_min_size args, pa_max_size args) ∧
           1 ≤ pa_min_size args ∧ pa_min_size args ≤ pa_max_size args).
Proof.
  destruct (pool_sizes_bounds (environ w)) as (mn & mx & Hs & H1 & H2).
  split.
  { by exists mn, mx. }
  destruct (get_pool_trace D w) as [H | (args & Ht & Hs')]; [by left|].
  right. exists args. split; [done|]. split; [done|].
  rewrite Hs in Hs'. injection Hs' as <- <-. done.
Qed.

Example pool_sizes_defaults : pool_sizes ∅ = Ok (1, 5).
Proof. reflexivity. Qed.

Example pool_sizes_max_below_min :
  pool_sizes {[ "SPEEDLIMIT_POOL_MIN_SIZE" := "8"; "SPEEDLIMIT_POOL_MAX_SIZE" := "3" ]}
  = Ok (8, 8).
Proof. reflexivity. Qed.

Example pool_sizes_non_positive :
  pool_sizes {[ "SPEEDLIMIT_POOL_MIN_SIZE" := "-4"; "SPEEDLIMIT_POOL_MAX_SIZE" := "0" ]}
  = Ok (1, 1).
Proof. reflexivity. Qed.

Example get_pool_constructs_with_valid_sizes :
  trace (snd (get_pool Sample.ok_driver
                (module_state {[ "SPEEDLIMIT_POOL_MAX_SIZE" := "0" ]}
                              Sample.patched_globals true)))
  = [EPoolNew (mkPoolArgs None 1 1 (Some (Some {[ "host" := VStr "localhost" ]})))].
Proof. vm_compute. reflexivity. Qed.

(** ** The missing pooling library *)

(** C10: when [ConnectionPool] is [None], [get_pool] raises the
    [RuntimeError] of lines 50-53 and leaves the process as it found it: no
    constructor call, no connection, no second attempt.  Its message names
    the two ways out, installing the package and disabling pooling. *)
Theorem get_pool_fails_fast_without_library (D : Driver) (w : World) :
  pool_lib w = false →
  get_pool D w = (Raise (RuntimeError pool_unavailable_message), w) ∧
  String.index 0 "Install the 'psycopg-pool' package" pool_unavailable_message ≠ None ∧
  String.index 0 "set SPEEDLIMIT_DISABLE_POOLING=1" pool_unavailable_message ≠ None.
Proof.
  intros L. split; [|split; vm_compute; discriminate].
  unfold get_pool. by rewrite L.
Qed.

Lemma get_pool_fails_fast_without_library_witness :
  pool_lib (module_state ∅ Sample.patched_globals false) = false ∧
  get_pool Sample.ok_driver (module_state ∅ Sample.patched_globals false)
  = (Raise (RuntimeError pool_unavailable_message),
     module_state ∅ Sample.patched_globals false) ∧
  String.index 0 "Install the 'psycopg-pool' package" pool_unavailable_message ≠ None ∧
  String.index 0 "set SPEEDLIMIT_DISABLE_POOLING=1" pool_unavailable_message ≠ None.
Proof.
  split; [reflexivity|].
  apply (get_pool_fails_fast_without_library Sample.ok_driver
           (module_state ∅ Sample.patched_globals false)).
  reflexivity.
Defined.

(** ** The undefined name *)

Lemma source_globals_lacks_helper :
  load_global source_globals "_build_connect_kwargs"
  = Raise (NameError "_build_connect_kwargs").
Proof. reflexivity. Qed.

Lemma call_helper_NameError (args : HelperArgs) (w : World) :
  globals w = source_globals →
  call_build_connect_kwargs args w = Raise (NameError "_build_connect_kwargs").
Proof.
  intros G. unfold call_build_connect_kwargs.
  by rewrite G, source_globals_lacks_helper.
Qed.

(** C1: in the namespace that the source builds, the name
    [_build_connect_kwargs] is bound neither by the module nor by the
    builtins.  So [connect] raises [NameError] for either value of
    [dict_rows], and so does [get_pool] when the pooling library is there
    and no pool exists yet; in both cases the process is left as it was
    found: nothing was asked of the driver, and no pool was built. *)
Theorem undefined_helper_raises_NameError (D : Driver) (w : World) (dict_rows : bool) :
  globals w = source_globals →
  connect D dict_rows w = (Raise (NameError "_build_connect_kwargs"), w) ∧
  (pool_lib w = true → _POOL w = None →
   get_pool D w = (Raise (NameError "_build_connect_kwargs"), w)).
Proof.
  intros G. split.
  - unfold connect. by rewrite (call_helper_NameError _ w G).
  - intros L P.
    assert (B : build_pool D w = (Raise (NameError "_build_connect_kwargs"), w)).
    { unfold build_pool.
      destruct (pool_sizes_bounds (environ w)) as (mn & mx & -> & _).
      by rewrite (call_helper_NameError _ w G). }
    unfold get_pool, bind. rewrite L, P. cbn [negb]. by rewrite B.
Qed.

Lemma undefined_helper_raises_NameError_witness :
  globals (module_state ∅ source_globals true) = source_globals ∧
  connect Sample.ok_driver true (module_state ∅ source_globals true)
  = (Raise (NameError "_build_connect_kwargs"), module_state ∅ source_globals true) ∧
  (pool_lib (module_state ∅ source_globals true) = true →
   _POOL (module_state ∅ source_globals true) = None →
   get_pool Sample.ok_driver (module_state ∅ source_globals true)
   = (Raise (NameError "_build_connect_kwargs"), module_state ∅ source_globals true)).
Proof.
  split; [reflexivity|].
  apply (undefined_helper_raises_NameError Sample.ok_driver
           (module_state ∅ source_globals true) true).
  reflexivity.
Defined.

(** ** The scope as a context manager *)

(** [connection_scope] is its entry, the block, then its exit. *)
Lemma connection_scope_protocol {A} (D : Driver) (dict_rows : bool)
    (block : conn_id -> M A) (w : World) :
  connection_scope D dict_rows block w =
  match scope_enter D dict_rows w with
  | (Raise e, w1) => (Raise e, w1)
  | (Ok h, w1) =>
      let '(o, w2) := block (handle_conn h) w1 in
      scope_leave D h o w2
  end.
Proof.
  unfold connection_scope, scope_enter.
  destruct (disable_pooling (environ w) || negb (pool_lib w)).
  - unfold unpooled_scope, bind, ret, attempt.
    destruct (connect D dict_rows w) as [[c|e] w1]; [|done]. simpl.
    by destruct (block c w1) as [o w2].
  - unfold pooled_scope, bind.
    destruct (get_pool D w) as [[[p|]|e] w1]; [|done|done].
    unfold with_pool_connection, bind, call_value, attempt, ret, get_row_factory.
    destruct (pool_enter D p (record (EPoolEnter p) w1)) as [[c attrs]|e]; [|done].
    simpl.
    destruct (adopt c attrs (record (EPoolEnter p) w1)) as [[[]|e] w2]; [|done].
    destruct ((if dict_rows then set_row_factory c dict_row else λ w0, (Ok (), w0)) w2)
      as [[[]|e] w3] eqn:E.
    + simpl. destruct (block c w3) as [o w4].
      unfold scope_leave, bind, attempt. done.
    + destruct dict_rows; discriminate.
Qed.

(** ** Leaving a scope *)

Ltac unfold_scope :=
  unfold scope_leave, unpooled_resume, pooled_resume, try_finally,
    try_except_Exception, bind, attempt, resume, ret, raise, call_unit,
    call_value, get_autocommit, get_row_factory, set_row_factory in *.

(** Case analysis on the answers of the external calls met on the way,
    one after the other. *)
Ltac answers :=
  repeat (simpl;
    match goal with
    | H : autocommit _ = _ |- _ => progress rewrite H
    | |- context [conn_commit ?D ?c ?w] => destruct (conn_commit D c w) eqn:?
    | |- context [conn_rollback ?D ?c ?w] => destruct (conn_rollback D c w) eqn:?
    | |- context [conn_close ?D ?c ?w] => destruct (conn_close D c w) eqn:?
    | |- context [pool_exit ?D ?p ?c ?x ?w] => destruct (pool_exit D p c x w) eqn:?
    | |- context [is_Exception ?e] => destruct (is_Exception e) eqn:?
    end); simpl.

Lemma trace_record (ev : event) (w : World) : trace (record ev w) = trace w ++ [ev].
Proof. reflexivity. Qed.

Lemma trace_set_heap (h : Heap) (w : World) : trace (set_heap h w) = trace w.
Proof. reflexivity. Qed.

Lemma heap_record (ev : event) (w : World) : heap (record ev w) = heap w.
Proof. reflexivity. Qed.

(** C4, amended: when the block of a scope ends with an exception [e] that
    is an [Exception], leaving the scope first calls [rollback] (on the
    pooled path only if autocommit is off), then gives the connection up,
    makes no other call, and always ends by raising.  What it raises is the
    exception of the last cleanup call that raised one: that of the release
    ([close], or the exit of [pool.connection()]) if it raised, otherwise
    that of [rollback] if it raised, otherwise [e] itself.  [rolled] is what
    [rollback] answered, and [w1] the state after the [except] clause. *)
Theorem scope_rolls_back_then_reraises {A} (D : Driver) (h : Handle) (e : exn)
    (w : World) :
  is_Exception e = true →
  ∃ (rolled : option exn) (w1 : World),
    (if rollback_due h w
     then w1 = record (ERollback (handle_conn h)) w ∧
          rolled = conn_rollback D (handle_conn h) w1
     else w1 = w ∧ rolled = None) ∧
    trace (snd (scope_leave (A:=A) D h (Raise e) w)) =
      trace w ++ (if rollback_due h w then [ERollback (handle_conn h)] else [])
              ++ [release_event h (Some (default e rolled))] ∧
    fst (scope_leave (A:=A) D h (Raise e) w) =
      Raise (default (default e rolled)
               (release_answer D h (Some (default e rolled))
                  (record (release_event h (Some (default e rolled)))
                     (before_release h w1)))).
Proof.
  intros He.
  destruct h as [c | p c prev]; unfold_scope; simpl; rewrite He; simpl.
  - eexists _, _. split; [split; reflexivity|].
    destruct (conn_rollback D c _) as [e1|]; simpl;
      destruct (conn_close D c _) as [e2|]; simpl;
      rewrite <- ?app_assoc; split; reflexivity.
  - destruct (autocommit (heap w !!! c)) eqn:AC; simpl.
    + eexists _, _. split; [split; reflexivity|]. simpl. rewrite AC.
      destruct (pool_exit D p c _ _) as [e2|]; simpl; split; reflexivity.
    + eexists _, _. split; [split; reflexivity|].
      destruct (conn_rollback D c _) as [e1|]; simpl; rewrite ?AC;
        destruct (pool_exit D p c _ _) as [e2|]; simpl;
        rewrite <- ?app_assoc; split; reflexivity.
Qed.

Lemma scope_rolls_back_then_reraises_witness :
  trace (snd (scope_leave (A:=unit) Sample.ok_driver (Pooled 0 7 tuple_row)
                (Raise (CallerError 1)) Sample.pooled_world))
  = [ERollback 7; EPoolExit 0 7 (Some (CallerError 1))] ∧
  fst (scope_leave (A:=unit) Sample.ok_driver (Pooled 0 7 tuple_row)
         (Raise (CallerError 1)) Sample.pooled_world)
  = Raise (CallerError 1).
Proof.
  destruct (scope_rolls_back_then_reraises (A:=unit) Sample.ok_driver
              (Pooled 0 7 tuple_row) (CallerError 1) Sample.pooled_world eq_refl)
    as (rolled & w1 & Hex & Htr & Hres).
  vm_compute in Hex. destruct Hex as [-> ->].
  split; [rewrite Htr | rewrite Hres]; vm_compute; reflexivity.
Defined.

(** A failure of the caller is replaced when [rollback] fails in its turn:
    the caller raised [CallerError 1], the scope raises [DriverError 2], on
    the pooled path and on the unpooled one. *)
Lemma rollback_failure_replaces_caller_failure :
  fst (connection_scope Sample.broken_rollback_driver false
         (caller Sample.failing) Sample.pooled_world)
  = Raise (DriverError 2) ∧
  fst (connection_scope Sample.broken_rollback_driver false
         (caller Sample.failing) Sample.unpooled_world)
  = Raise (DriverError 2) ∧
  ¬ reraises_unchanged.
Proof.
  split; [vm_compute; reflexivity|]. split; [vm_compute; reflexivity|].
  intros H.
  specialize (H Sample.broken_rollback_driver (Unpooled 0) (CallerError 1)
                Sample.unpooled_world eq_refl).
  vm_compute in H. discriminate.
Qed.

(** An exception that is not an [Exception] passes [except Exception]: no
    rollback is called for it. *)
Example interrupt_is_not_rolled_back :
  scope_leave (A:=unit) Sample.ok_driver (Unpooled 0) (Raise (Interrupt 1))
    Sample.unpooled_world
  = (Raise (Interrupt 1), record (EClose 0) Sample.unpooled_world).
Proof. reflexivity. Qed.

(** ** Autocommit *)

(** C3, amended: on the pooled path, when the autocommit flag of the
    connection is set as the scope is left, the module calls neither
    [commit] nor [rollback]: the one call it makes is the exit of
    [pool.connection()], and the block's outcome goes through when that exit
    raises nothing.  On the unpooled path the flag is not looked at:
    whatever it is, the first call is [commit] after a block that ended
    normally, and [rollback] after one that raised an [Exception]. *)
Theorem autocommit_suppresses_on_pooled_path {A} (D : Driver) (h : Handle)
    (o : result A) (w : World) :
  match h with
  | Pooled p c prev =>
      autocommit (heap w !!! c) = true →
      trace (snd (scope_leave D h o w)) = trace w ++ [EPoolExit p c (exc_of o)] ∧
      (fst (scope_leave D h o w) = o ∨
       ∃ e, pool_exit D p c (exc_of o)
              (record (EPoolExit p c (exc_of o))
                 (set_heap (<[c := mkConn true prev]> (heap w)) w)) = Some e ∧
            fst (scope_leave D h o w) = Raise e)
  | Unpooled c =>
      ∃ evs, trace (snd (scope_leave D h o w)) =
             trace w ++ match o with
                        | Ok _ => ECommit c
                        | Raise e => if is_Exception e then ERollback c else EClose c
                        end :: evs
  end.
Proof.
  destruct h as [c | p c prev]; [|intros AC].
  - unfold_scope. destruct o as [a|e]; simpl.
    + destruct (conn_commit D c _) as [e1|]; simpl.
      * destruct (is_Exception e1); simpl.
        -- destruct (conn_rollback D c _); simpl;
             destruct (conn_close D c _); simpl; rewrite <- ?app_assoc; eauto.
        -- destruct (conn_close D c _); simpl; rewrite <- ?app_assoc; eauto.
      * destruct (conn_close D c _); simpl; rewrite <- ?app_assoc; eauto.
    + destruct (is_Exception e); simpl.
      * destruct (conn_rollback D c _); simpl;
          destruct (conn_close D c _); simpl; rewrite <- ?app_assoc; eauto.
      * destruct (conn_close D c _); simpl; eauto.
  - unfold_scope. destruct o as [a|e]; simpl; rewrite AC; simpl.
    + destruct (pool_exit D p c _ _) as [e1|] eqn:X; simpl;
        rewrite ?AC in X; eauto.
    + destruct (is_Exception e); simpl; rewrite ?AC; simpl;
        destruct (pool_exit D p c _ _) as [e1|] eqn:X; simpl;
        rewrite ?AC in X; eauto.
Qed.

Lemma autocommit_suppresses_on_pooled_path_witness :
  autocommit (heap Sample.autocommit_world !!! handle_conn (Pooled 0 0 tuple_row)) = true ∧
  trace (snd (scope_leave Sample.ok_driver (Pooled 0 0 tuple_row) (Ok tt)
                Sample.autocommit_world))
  = trace Sample.autocommit_world ++ [EPoolExit 0 0 None].
Proof.
  split; [reflexivity|].
  exact (proj1 (autocommit_suppresses_on_pooled_path Sample.ok_driver
                  (Pooled 0 0 tuple_row) (Ok tt) Sample.autocommit_world eq_refl)).
Defined.

(** On the unpooled path autocommit suppresses nothing: a scope whose block
    turned autocommit on still calls [commit] (line 85), and one whose
    connection is in autocommit mode and whose block failed still calls
    [rollback] (line 87). *)
Lemma unpooled_path_ignores_autocommit :
  autocommit (heap (snd (connection_scope Sample.ok_driver false
                           (caller Sample.set_autocommit) Sample.unpooled_world)) !!! 0%nat)
  = true ∧
  trace (snd (connection_scope Sample.ok_driver false
                (caller Sample.set_autocommit) Sample.unpooled_world))
  = [EConnect {[ "host" := VStr "localhost" ]}; ECommit 0; EClose 0] ∧
  trace (snd (scope_leave (A:=unit) Sample.ok_driver (Unpooled 0)
                (Raise (CallerError 1)) Sample.autocommit_world))
  = [ERollback 0; EClose 0] ∧
  ¬ autocommit_suppresses_on_both_paths.
Proof.
  split; [vm_compute; reflexivity|].
  split; [vm_compute; reflexivity|].
  split; [vm_compute; reflexivity|].
  intros H.
  specialize (H Sample.ok_driver (Unpooled 0) (Ok tt) Sample.autocommit_world
                [ECommit 0; EClose 0] eq_refl eq_refl).
  inversion H as [|? ? Hc _]. discriminate Hc.
Qed.

(** ** What [get_pool] leaves untouched *)

Lemma build_pool_frame (D : Driver) (w : World) :
  heap (snd (build_pool D w)) = heap w ∧
  environ (snd (build_pool D w)) = environ w ∧
  pool_lib (snd (build_pool D w)) = pool_lib w ∧
  globals (snd (build_pool D w)) = globals w.
Proof.
  destruct (build_pool_cases D w) as [[e ->] | (mn & mx & kw & _ & _ & Hc)]; [done|].
  simpl in Hc. destruct Hc as [(e & _ & ->) | [_ ->]]; done.
Qed.

Lemma get_pool_frame (D : Driver) (w : World) :
  heap (snd (get_pool D w)) = heap w ∧
  environ (snd (get_pool D w)) = environ w ∧
  pool_lib (snd (get_pool D w)) = pool_lib w ∧
  globals (snd (get_pool D w)) = globals w.
Proof.
  destruct (get_pool_cases D w) as [[_ ->] | [(_ & p & _ & ->) | (_ & _ & r & w' & B & G)]];
    [done | done |].
  pose proof (build_pool_frame D w) as F. rewrite B in F. simpl in F.
  destruct r; rewrite G; exact F.
Qed.

(** ** Entering a scope on the pooled path *)

(** How the pooled entry unfolds: the pool is obtained, a connection is
    lent, its row factory is saved, and switched if [dict_rows] asks so. *)
Lemma scope_enter_pooled (D : Driver) (dict_rows : bool) (w w1 : World)
    (p : pool_id) (c : conn_id) (prev : RowFactory) :
  scope_enter D dict_rows w = (Ok (Pooled p c prev), w1) →
  ∃ wp attrs,
    get_pool D w = (Ok (Some p), wp) ∧
    pool_enter D p (record (EPoolEnter p) wp) = Ok (c, attrs) ∧
    prev = row_factory (default attrs (heap w !! c)) ∧
    trace w1 = trace wp ++ [EPoolEnter p] ∧
    row_factory (heap w1 !!! c) = (if dict_rows then dict_row else prev) ∧
    is_Some (heap w1 !! c).
Proof.
  unfold scope_enter.
  destruct (disable_pooling (environ w) || negb (pool_lib w)).
  { unfold bind, ret. destruct (connect D dict_rows w) as [[?|?] ?]; discriminate. }
  unfold bind.
  pose proof (get_pool_frame D w) as (Hh & _).
  destruct (get_pool D w) as [[[p0|]|e] wp]; [|discriminate|discriminate].
  simpl in Hh.
  unfold call_value, get_row_factory, ret.
  destruct (pool_enter D p0 (record (EPoolEnter p0) wp)) as [[c0 attrs]|e] eqn:L;
    [|discriminate].
  simpl. unfold adopt. rewrite heap_record, Hh.
  destruct (heap w !! c0) as [known|] eqn:K.
  - destruct dict_rows; unfold set_row_factory; simpl; intros [= <- <- <- <-];
      exists wp, attrs; rewrite ?Hh; simpl;
      rewrite ?Hh, ?lookup_total_insert_eq, ?lookup_insert_eq,
        ?(lookup_total_correct _ _ _ K), ?K; simpl;
      repeat split; eauto.
  - destruct dict_rows; unfold set_row_factory; simpl; intros [= <- <- <- <-];
      exists wp, attrs; rewrite ?Hh; simpl;
      rewrite ?lookup_total_insert_eq, ?lookup_insert_eq, ?K;
      repeat split; eauto.
Qed.

(** ** The row factory of a pooled connection *)

(** Leaving a pooled scope changes the connection objects in one way only:
    the row factory of the connection is set back to the saved one. *)
Lemma scope_leave_pooled_heap {A} (D : Driver) (p : pool_id) (c : conn_id)
    (prev : RowFactory) (o : result A) (w : World) :
  heap (snd (scope_leave D (Pooled p c prev) o w)) =
  <[c := mkConn (autocommit (heap w !!! c)) prev]> (heap w).
Proof.
  destruct (autocommit (heap w !!! c)) eqn:AC;
    unfold_scope; destruct o as [a|e]; answers; reflexivity.
Qed.

(** C5: on the pooled path the row factory that the connection has when it
    is lent is saved ([prev]); the connection carries [dict_row] inside the
    scope only if the scope asked for it; however the scope is left (block
    ended normally or raised, commit or rollback raised or not, whatever the
    block did to the connection) the row factory is [prev] again; and a
    later scope that borrows the same connection without asking for
    dictionary rows finds [prev], not the [dict_row] of the earlier one. *)
Theorem pooled_row_factory_restored {A} (D : Driver) (dict_rows : bool)
    (w w1 : World) (p : pool_id) (c : conn_id) (prev : RowFactory) :
  scope_enter D dict_rows w = (Ok (Pooled p c prev), w1) →
  (∀ known, heap w !! c = Some known → prev = row_factory known) ∧
  row_factory (heap w1 !!! c) = (if dict_rows then dict_row else prev) ∧
  ∀ (o : result A) (w2 : World),
    row_factory (heap (snd (scope_leave D (Pooled p c prev) o w2)) !!! c) = prev ∧
    ∀ p' prev' w3,
      scope_enter D false (snd (scope_leave D (Pooled p c prev) o w2))
      = (Ok (Pooled p' c prev'), w3) →
      prev' = prev ∧ row_factory (heap w3 !!! c) = prev.
Proof.
  intros Henter.
  destruct (scope_enter_pooled _ _ _ _ _ _ _ Henter)
    as (wp & attrs & _ & _ & Hprev & _ & Hin & _).
  split.
  { intros known K. by rewrite Hprev, K. }
  split; [exact Hin|].
  intros o w2.
  pose proof (scope_leave_pooled_heap D p c prev o w2) as Hheap.
  split.
  { by rewrite Hheap, lookup_total_insert_eq. }
  intros p' prev' w3 Henter'.
  destruct (scope_enter_pooled _ _ _ _ _ _ _ Henter')
    as (wp' & attrs' & _ & _ & Hprev' & _ & Hin' & _).
  rewrite Hheap, lookup_insert_eq in Hprev'. simpl in Hprev'.
  split; [exact Hprev'|]. by rewrite Hin'.
Qed.

Lemma pooled_row_factory_restored_witness :
  scope_enter Sample.ok_driver true Sample.pooled_world
  = (Ok (Pooled 0 7 tuple_row),
     snd (scope_enter Sample.ok_driver true Sample.pooled_world)) ∧
  row_factory (heap (snd (scope_enter Sample.ok_driver true Sample.pooled_world)) !!! 7%nat)
  = dict_row ∧
  ∀ (o : result unit) (w2 : World),
    row_factory (heap (snd (scope_leave Sample.ok_driver (Pooled 0 7 tuple_row) o w2)) !!! 7%nat)
    = tuple_row.
Proof.
  assert (H : scope_enter Sample.ok_driver true Sample.pooled_world
              = (Ok (Pooled 0 7 tuple_row),
                 snd (scope_enter Sample.ok_driver true Sample.pooled_world)))
    by (vm_compute; reflexivity).
  split; [exact H|].
  pose proof (pooled_row_factory_restored (A:=unit) Sample.ok_driver true
                Sample.pooled_world _ 0%nat 7%nat tuple_row H) as (_ & Hin & Hout).
  split; [exact Hin|].
  intros o w2. exact (proj1 (Hout o w2)).
Defined.

(** Two scopes in a row on the pooled path: the first asks for dictionary
    rows and sees [dict_row]; the second does not and sees [tuple_row] on
    the same connection. *)
Example mode_isolation_run :
  fst (connection_scope Sample.ok_driver true (caller Sample.observe) Sample.pooled_world)
  = Ok dict_row ∧
  fst (connection_scope Sample.ok_driver false (caller Sample.observe)
         (snd (connection_scope Sample.ok_driver true (caller Sample.observe)
                 Sample.pooled_world)))
  = Ok tuple_row.
Proof. split; vm_compute; reflexivity. Qed.

(** ** Which path a scope takes *)

Lemma uses_pool_spec (w : World) :
  uses_pool w = false ↔
  (environ w !! "SPEEDLIMIT_DISABLE_POOLING" = Some "1" ∨ pool_lib w = false).
Proof.
  unfold uses_pool, disable_pooling.
  rewrite negb_false_iff, orb_true_iff, negb_true_iff.
  split; (intros [H|H]; [left|by right]).
  - destruct (environ w !! "SPEEDLIMIT_DISABLE_POOLING") as [v|]; simpl in H.
    + apply String.eqb_eq in H. by subst.
    + discriminate.
  - by rewrite H.
Qed.

(** How [connect] unfolds. *)
Lemma connect_cases (D : Driver) (dict_rows : bool) (w : World) :
  (∃ e, connect D dict_rows w = (Raise e, w)) ∨
  ∃ kw,
    let w1 := record (EConnect kw) w in
    (∃ e, connect D dict_rows w = (Raise e, w1)) ∨
    (∃ attrs,
        psycopg_connect D kw w1 = Ok attrs ∧
        connect D dict_rows w =
          (Ok (fresh (dom (heap w))),
           set_heap (<[fresh (dom (heap w)) := attrs]> (heap w)) w1)).
Proof.
  unfold connect.
  destruct (call_build_connect_kwargs _ w) as [kw|e]; [|left; eauto].
  right. exists kw. unfold bind, call_value. simpl.
  destruct (psycopg_connect D kw _) as [attrs|e]; [right|left]; eauto.
Qed.

Lemma is_commit_or_rollback_not_pool (ev : event) :
  is_commit_or_rollback ev = true → is_pool_event ev = false.
Proof. by destruct ev. Qed.

Lemma is_commit_or_rollback_not_connect (ev : event) :
  is_commit_or_rollback ev = true → is_connect_or_close ev = false.
Proof. by destruct ev. Qed.

(** Closes a goal [∃ mid, t ++ ... = t ++ mid ++ [last] ∧ Forall _ mid ∧ _]
    whose left-hand side is spelt out. *)
Ltac pick_middle :=
  rewrite <- ?app_assoc; simpl;
  first [ exists []; split; [reflexivity|]; split; [constructor|]
        | eexists [_]; split; [reflexivity|]; split; [repeat constructor|]
        | eexists [_; _]; split; [reflexivity|]; split; [repeat constructor|] ].

(** The calls made when an unpooled scope is left: [commit] or [rollback]
    or both, then [close], which comes last on every way out. *)
Lemma unpooled_leave_shape {A} (D : Driver) (c : conn_id) (o : result A) (w : World) :
  ∃ mid,
    trace (snd (scope_leave D (Unpooled c) o w)) = trace w ++ mid ++ [EClose c] ∧
    Forall (λ ev, is_commit_or_rollback ev = true) mid ∧
    _POOL (snd (scope_leave D (Unpooled c) o w)) = _POOL w ∧
    pools_built (snd (scope_leave D (Unpooled c) o w)) = pools_built w.
Proof.
  unfold_scope. destruct o as [a|e]; answers; pick_middle; done.
Qed.

(** The calls made when a pooled scope is left: [commit] or [rollback] or
    both or none, then the exit of [pool.connection()], which comes last. *)
Lemma pooled_leave_shape {A} (D : Driver) (p : pool_id) (c : conn_id)
    (prev : RowFactory) (o : result A) (w : World) :
  ∃ mid exc,
    trace (snd (scope_leave D (Pooled p c prev) o w)) =
      trace w ++ mid ++ [EPoolExit p c exc] ∧
    Forall (λ ev, is_commit_or_rollback ev = true) mid.
Proof.
  destruct (autocommit (heap w !!! c)) eqn:AC;
    unfold_scope; destruct o as [a|e]; answers;
    rewrite <- ?app_assoc; simpl;
    first [ exists []; eexists; split; [reflexivity|constructor]
          | eexists [_]; eexists; split; [reflexivity|repeat constructor]
          | eexists [_; _]; eexists; split; [reflexivity|repeat constructor] ].
Qed.

(** How the pooled entry unfolds, whatever comes of it. *)
Lemma pooled_enter_cases (D : Driver) (dict_rows : bool) (w : World) :
  uses_pool w = true →
  ∃ rp wp, get_pool D w = (rp, wp) ∧
    match rp with
    | Raise e => scope_enter D dict_rows w = (Raise e, wp)
    | Ok None => ∃ e, scope_enter D dict_rows w = (Raise e, wp)
    | Ok (Some p) =>
        trace (snd (scope_enter D dict_rows w)) = trace wp ++ [EPoolEnter p] ∧
        match pool_enter D p (record (EPoolEnter p) wp) with
        | Raise e => fst (scope_enter D dict_rows w) = Raise e
        | Ok (c, _) => ∃ prev, fst (scope_enter D dict_rows w) = Ok (Pooled p c prev)
        end
    end.
Proof.
  unfold uses_pool. rewrite negb_true_iff. intros U.
  unfold scope_enter. rewrite U. unfold bind.
  destruct (get_pool D w) as [[[p|]|e] wp]; eexists _, _; (split; [reflexivity|]);
    [|simpl; unfold raise; eauto|done].
  unfold call_value, get_row_factory, ret, adopt. simpl.
  destruct (pool_enter D p (record (EPoolEnter p) wp)) as [[c attrs]|e]; simpl; [|done].
  destruct (heap wp !! c); destruct dict_rows; simpl; eauto.
Qed.

Lemma caller_trace {A} (f : CallerCode A) (c : conn_id) (w : World) :
  trace (snd (caller f c w)) = trace w ∧
  _POOL (snd (caller f c w)) = _POOL w ∧
  pools_built (snd (caller f c w)) = pools_built w.
Proof. unfold caller. by destruct (f c (heap w)). Qed.

(** The unpooled path: no call on the pooling library and no change to the
    shared pool; and when [connect] opened a connection, that connection is
    new, and [close] on it is the last call of the scope. *)
Lemma unpooled_scope_shape {A} (D : Driver) (dict_rows : bool)
    (f : CallerCode A) (w : World) :
  uses_pool w = false →
  ∃ evs,
    trace (snd (connection_scope D dict_rows (caller f) w)) = trace w ++ evs ∧
    Forall (λ ev, is_pool_event ev = false) evs ∧
    _POOL (snd (connection_scope D dict_rows (caller f) w)) = _POOL w ∧
    pools_built (snd (connection_scope D dict_rows (caller f) w)) = pools_built w ∧
    ∀ c w1, connect D dict_rows w = (Ok c, w1) →
      heap w !! c = None ∧
      ∃ kw mid, evs = EConnect kw :: mid ++ [EClose c] ∧
                Forall (λ ev, is_connect_or_close ev = false) mid.
Proof.
  unfold uses_pool. rewrite negb_false_iff. intros U.
  unfold connection_scope. rewrite U.
  unfold unpooled_scope, bind, attempt.
  destruct (connect_cases D dict_rows w) as [[e ->] | (kw & [[e ->] | (attrs & _ & ->)])].
  - exists []. rewrite app_nil_r. repeat split; done.
  - exists [EConnect kw]. repeat split; try done. by repeat constructor.
  - set (c := fresh (dom (heap w))).
    set (w1 := set_heap (<[c:=attrs]> (heap w)) (record (EConnect kw) w)).
    pose proof (caller_trace f c w1) as (Ht & Hp & Hb).
    destruct (caller f c w1) as [o w2]. simpl in Ht, Hp, Hb.
    destruct (unpooled_leave_shape D c o w2) as (mid & Hl & Hmid & Hp' & Hb').
    change (scope_leave D (Unpooled c) o w2) with (unpooled_resume D c o w2) in *.
    exists (EConnect kw :: mid ++ [EClose c]).
    split. { rewrite Hl, Ht. simpl. by rewrite <- app_assoc. }
    split.
    { constructor; [done|]. apply Forall_app. split; [|by repeat constructor].
      eapply Forall_impl; [exact Hmid|]. apply is_commit_or_rollback_not_pool. }
    split. { by rewrite Hp', Hp. }
    split. { by rewrite Hb', Hb. }
    intros c' w1' [= <- <-]. split.
    { apply not_elem_of_dom. apply is_fresh. }
    exists kw, mid. split; [done|].
    eapply Forall_impl; [exact Hmid|]. apply is_commit_or_rollback_not_connect.
Qed.

(** The pooled path: no [psycopg.connect] and no [close]; and when
    [get_pool] handed the pool over, the scope asks it for a connection,
    and, if it was lent one, gives it back as its last call. *)
Lemma pooled_scope_shape {A} (D : Driver) (dict_rows : bool)
    (f : CallerCode A) (w : World) :
  uses_pool w = true →
  ∃ evs,
    trace (snd (connection_scope D dict_rows (caller f) w)) = trace w ++ evs ∧
    Forall (λ ev, is_connect_or_close ev = false) evs ∧
    ∀ p wp, get_pool D w = (Ok (Some p), wp) →
      EPoolEnter p ∈ evs ∧
      ∀ c attrs, pool_enter D p (record (EPoolEnter p) wp) = Ok (c, attrs) →
        ∃ pre mid exc, evs = pre ++ EPoolEnter p :: mid ++ [EPoolExit p c exc].
Proof.
  intros U. rewrite connection_scope_protocol.
  destruct (pooled_enter_cases D dict_rows w U) as (rp & wp & G & Hc).
  assert (Hpre : ∃ pre, trace wp = trace w ++ pre ∧
                        Forall (λ ev, is_connect_or_close ev = false) pre).
  { pose proof (get_pool_trace D w) as T. rewrite G in T. simpl in T.
    destruct T as [T | (args & T & _)].
    - exists []. by rewrite app_nil_r.
    - exists [EPoolNew args]. split; [done|]. by repeat constructor. }
  destruct Hpre as (pre & Hpre & Fpre).
  destruct rp as [[p|]|e].
  - destruct Hc as [Ht Hc].
    destruct (scope_enter D dict_rows w) as [[h|e] w1] eqn:E; simpl in Ht, Hc.
    + destruct (pool_enter D p (record (EPoolEnter p) wp)) as [[c attrs]|e] eqn:L;
        [|discriminate].
      destruct Hc as [prev [= ->]]. simpl.
      pose proof (caller_trace f c w1) as (Hb & _).
      destruct (caller f c w1) as [o w2]. simpl in Hb.
      destruct (pooled_leave_shape D p c prev o w2) as (mid & exc & Hl & Hmid).
      exists (pre ++ EPoolEnter p :: mid ++ [EPoolExit p c exc]).
      split.
      { etrans; [exact Hl|]. rewrite Hb, Ht, Hpre. rewrite <- !app_assoc. reflexivity. }
      split.
      { apply Forall_app. split; [done|]. constructor; [done|].
        apply Forall_app. split; [|by repeat constructor].
        eapply Forall_impl; [exact Hmid|]. apply is_commit_or_rollback_not_connect. }
      intros p' wp' G'. rewrite G in G'. injection G' as <- <-. split.
      { apply elem_of_app. right. left. }
      intros c' attrs' L'. rewrite L in L'. injection L' as <- <-. eauto.
    + exists (pre ++ [EPoolEnter p]).
      split. { simpl. rewrite Ht, Hpre. by rewrite <- app_assoc. }
      split. { apply Forall_app. split; [done|]. by repeat constructor. }
      intros p' wp' G'. rewrite G in G'. injection G' as <- <-. split.
      { apply elem_of_app. right. left. }
      intros c' attrs' L'. rewrite L' in Hc. by destruct Hc as [? ?].
  - destruct Hc as [e ->]. exists pre. split; [done|]. split; [done|].
    intros p' wp' G'. rewrite G in G'. discriminate.
  - rewrite Hc. exists pre. split; [done|]. split; [done|].
    intros p' wp' G'. rewrite G in G'. discriminate.
Qed.

(** C8: the scope takes the unpooled path exactly when the variable
    SPEEDLIMIT_DISABLE_POOLING is the string "1" or the pooling library is
    missing.  On that path it makes no call on the pooling library and
    leaves the shared pool as it was, and a connection that [connect] opened
    is new and is closed by the last call of the scope.  On the other path
    it makes no [psycopg.connect] and no [close] call: it asks the pool that
    [get_pool] returned for a connection, and gives back the one it was
    lent by its last call. *)
Theorem scope_strategy {A} (D : Driver) (dict_rows : bool) (f : CallerCode A)
    (w : World) :
  (uses_pool w = false ↔
   (environ w !! "SPEEDLIMIT_DISABLE_POOLING" = Some "1" ∨ pool_lib w = false)) ∧
  ∃ evs,
    trace (snd (connection_scope D dict_rows (caller f) w)) = trace w ++ evs ∧
    if uses_pool w then
      Forall (λ ev, is_connect_or_close ev = false) evs ∧
      ∀ p wp, get_pool D w = (Ok (Some p), wp) →
        EPoolEnter p ∈ evs ∧
        ∀ c attrs, pool_enter D p (record (EPoolEnter p) wp) = Ok (c, attrs) →
          ∃ pre mid exc, evs = pre ++ EPoolEnter p :: mid ++ [EPoolExit p c exc]
    else
      Forall (λ ev, is_pool_event ev = false) evs ∧
      _POOL (snd (connection_scope D dict_rows (caller f) w)) = _POOL w ∧
      pools_built (snd (connection_scope D dict_rows (caller f) w)) = pools_built w ∧
      ∀ c w1, connect D dict_rows w = (Ok c, w1) →
        heap w !! c = None ∧
        ∃ kw mid, evs = EConnect kw :: mid ++ [EClose c] ∧
                  Forall (λ ev, is_connect_or_close ev = false) mid.
Proof.
  split; [apply uses_pool_spec|].
  destruct (uses_pool w) eqn:U.
  - destruct (pooled_scope_shape D dict_rows f w U) as (evs & H1 & H2). eauto.
  - destruct (unpooled_scope_shape D dict_rows f w U) as (evs & H1 & H2). eauto.
Qed.

Example unpooled_scope_run :
  trace (snd (connection_scope Sample.ok_driver false (caller Sample.idle)
                Sample.unpooled_world))
  = [EConnect {[ "host" := VStr "localhost" ]}; ECommit 0; EClose 0] ∧
  _POOL (snd (connection_scope Sample.ok_driver false (caller Sample.idle)
                Sample.unpooled_world)) = None.
Proof. split; vm_compute; reflexivity. Qed.

Example pooled_scope_run :
  trace (snd (connection_scope Sample.ok_driver false (caller Sample.idle)
                Sample.pooled_world))
  = [EPoolNew (mkPoolArgs None 1 5 (Some (Some {[ "host" := VStr "localhost" ]})));
     EPoolEnter 0; ECommit 7; EPoolExit 0 7 None] ∧
  _POOL (snd (connection_scope Sample.ok_driver false (caller Sample.idle)
                Sample.pooled_world)) = Some 0%nat.
Proof. split; vm_compute; reflexivity. Qed.

Example other_flag_values_keep_pooling :
  uses_pool (module_state {[ "SPEEDLIMIT_DISABLE_POOLING" := "true" ]}
               Sample.patched_globals true) = true ∧
  uses_pool (module_state {[ "SPEEDLIMIT_DISABLE_POOLING" := " 1" ]}
               Sample.patched_globals true) = true.
Proof. split; reflexivity. Qed.

(** ** [fetch_value] *)

Lemma fetch_value_unfold (D : Driver) (query : string)
    (params : option (list pyval)) :
  fetch_value D query params =
  connection_scope D false (fetch_value_block D query params).
Proof. reflexivity. Qed.







(** A scope whose block ended normally hands the value of the block over,
    when winding up does not fail. *)
Lemma scope_leave_ok {A} (D : Driver) (h : Handle) (a : A) (w : World) :
  cleanup_succeeds D →
  fst (scope_leave D h (Ok a) w) = Ok a.
Proof.
  intros Hok.
  assert (Hcommit : ∀ c w, conn_commit D c w = None) by (intros; apply Hok).
  assert (Hclose : ∀ c w, conn_close D c w = None) by (intros; apply Hok).
  assert (Hexit : ∀ p c x w, pool_exit D p c x w = None) by (intros; apply Hok).
  destruct h as [c | p c prev]; unfold_scope; simpl.
  - by rewrite Hcommit, Hclose.
  - destruct (autocommit (heap w !!! c)); simpl; by rewrite ?Hcommit, Hexit.
Qed.




(** ** [get_pool] under interleaving: at most one pool *)

Section Interleaving.
Import Threads ThreadsInv.

Lemma threads_goto (t t' : tid) (p : pc) (more : nat) (s : State) :
  threads (goto t p more s) !! t' =
  if decide (t = t') then Some (p, more) else threads s !! t'.
Proof. unfold goto. simpl. apply lookup_insert. Qed.

Lemma threads_finish (t t' : tid) (more : nat) (r : result (option pool_id)) (s : State) :
  threads (finish t more r s) !! t' =
  if decide (t = t') then
    match more with O => None | S more' => Some (PStart, more') end
  else threads s !! t'.
Proof.
  unfold finish. simpl. destruct more.
  - rewrite lookup_delete. by case_decide.
  - apply lookup_insert.
Qed.

Lemma settled_nil : settled [].
Proof. intros i j ti vi tj ej H. by destruct i. Qed.

Lemma settled_return (l : Log) (t : tid) (v : option pool_id) :
  settled l → settled (l ++ [(t, Ok v)]).
Proof.
  intros Hl i j ti vi tj ej Hi Hj.
  apply lookup_app_Some in Hj as [Hj | [_ Hj]].
  - apply lookup_app_Some in Hi as [Hi | [Hlen _]].
    + eauto.
    + apply lookup_lt_Some in Hj. lia.
  - apply list_lookup_singleton_Some in Hj as [_ [=]].
Qed.

Lemma settled_raise (l : Log) (t : tid) (e : exn) :
  (∀ t' v, (t', Ok v) ∉ l) → settled (l ++ [(t, Raise e)]).
Proof.
  intros Hno i j ti vi tj ej Hi Hj.
  apply lookup_app_Some in Hi as [Hi | [_ Hi]].
  - exfalso. eapply Hno. eapply list_elem_of_lookup_2. exact Hi.
  - apply list_lookup_singleton_Some in Hi as [_ [=]].
Qed.

Lemma init_inv (w : World) (calls : gmap tid nat) :
  _POOL w = None → pools_built w = 0%nat → Inv (init w calls).
Proof.
  intros P B. split; simpl.
  - intros t p n H. rewrite lookup_fmap in H.
    destruct (calls !! t); simplify_eq/=. done.
  - intros p H. congruence.
  - by left.
  - intros t p n H. rewrite lookup_fmap in H.
    destruct (calls !! t); simplify_eq/=.
  - intros t p n H. rewrite lookup_fmap in H.
    destruct (calls !! t); simplify_eq/=. done.
  - intros t p n H. rewrite lookup_fmap in H.
    destruct (calls !! t); simplify_eq/=. done.
  - intros _. split.
    + intros t p n H. rewrite lookup_fmap in H.
      destruct (calls !! t); simplify_eq/=. done.
    + intros t v H. by apply not_elem_of_nil in H.
  - intros t v H. by apply not_elem_of_nil in H.
  - apply settled_nil.
Qed.

(** Case analysis on whether the thread looked up is the one that moved. *)
Ltac same_thread t t' :=
  destruct (decide (t = t')) as [->|?]; simplify_map_eq.

(** The goals that a step which moves thread [t] leaves, when they follow
    from the same facts about the state before the step. *)
Ltac inv_easy t :=
  simpl;
  match goal with
  | |- ∀ t' p n, _ !! t' = Some _ → _ =>
      let t' := fresh "t'" in
      intros t' ? ? ?; intros; same_thread t t'; solve [eauto | congruence]
  | |- _ = None → _ ∨ _ =>
      let P := fresh "P" in
      let t0 := fresh "t0" in
      let n0 := fresh "n0" in
      let H0 := fresh "H0" in
      intros P;
      match goal with
      | Hn : _ = None → _ ∨ _ |- _ =>
          destruct (Hn P) as [?|(? & t0 & n0 & H0)]; [by left|right];
          split; [done|]; exists t0, n0; same_thread t t0; done
      end
  | |- _ => solve [done | eauto | congruence]
  end.

Lemma not_in_snoc_raise (l : Log) (t : tid) (e : exn) :
  (∀ t' v, (t', Ok v) ∉ l) → ∀ t' v, (t', Ok v) ∉ l ++ [(t, Raise e)].
Proof.
  intros Hno t' v H. apply elem_of_app in H as [H|H]; [by eapply Hno|].
  by apply list_elem_of_singleton in H.
Qed.

Lemma in_snoc_raise (l : Log) (t t' : tid) (e : exn) (v : option pool_id) :
  (t', Ok v) ∈ l ++ [(t, Raise e)] → (t', Ok v) ∈ l.
Proof.
  intros H. apply elem_of_app in H as [H|H]; [done|].
  by apply list_elem_of_singleton in H.
Qed.

Lemma in_snoc_return (l : Log) (t t' : tid) (v v' : option pool_id) :
  (t', Ok v) ∈ l ++ [(t, Ok v')] → (t', Ok v) ∈ l ∨ v = v'.
Proof.
  intros H. apply elem_of_app in H as [H|H]; [by left|].
  apply list_elem_of_singleton in H. right. congruence.
Qed.

Lemma pool_cases (w : World) : _POOL w = None ∨ ∃ q, _POOL w = Some q.
Proof. destruct (_POOL w); eauto. Qed.

Lemma step_inv (D : Driver) (t : tid) (s s' : State) :
  Inv s → step D t s = Some s' → Inv s'.
Proof.
  intros [Hlock Hpool Hnone Hassign Hbuild Hreturn Hlib Hret Hset] Hstep.
  unfold step in Hstep. destruct (threads s !! t) as [[p n]|] eqn:T; [|done].
  assert (L : p = PStart ∨ pool_lib (shared s) = true).
  { destruct (pool_lib (shared s)) eqn:L; [by right|left].
    destruct (Hlib eq_refl) as [Hall _]. by specialize (Hall _ _ _ T). }
  destruct p; simpl in Hstep; (destruct L as [L|L]; [try discriminate L|]).
  - (* line 49 *)
    destruct (pool_lib (shared s)) eqn:L'; simpl in Hstep; injection Hstep as <-.
    + split; try inv_easy t.
    + destruct (Hlib eq_refl) as [Hall Hno].
      destruct n; (split; try inv_easy t); simpl.
      * intros _. split; [|by apply not_in_snoc_raise].
        intros t' p' n' H. same_thread t t'. eauto.
      * intros t' v H. apply in_snoc_raise in H. eauto.
      * by apply settled_raise.
      * intros _. split; [|by apply not_in_snoc_raise].
        intros t' p' n' H. same_thread t t'; eauto.
      * intros t' v H. apply in_snoc_raise in H. eauto.
      * by apply settled_raise.
  - rewrite L in Hstep. simpl in Hstep. injection Hstep as <-.
    split; try inv_easy t.
  - (* line 56 *)
    destruct (pool_cases (shared s)) as [P | [q P]]; rewrite P in Hstep;
      injection Hstep as <-.
    + split; try inv_easy t.
    + destruct (Hpool _ P) as [-> HB].
      split; try inv_easy t.
  - (* line 57 *)
    destruct (lock s) as [holder|] eqn:K; [done|]. injection Hstep as <-.
    split; try inv_easy t.
    intros t' p' n' H C. same_thread t t'; [done|].
    by specialize (Hlock _ _ _ H C).
  - (* line 58 *)
    destruct (pool_cases (shared s)) as [P | [q P]]; rewrite P in Hstep;
      injection Hstep as <-.
    + assert (B : pools_built (shared s) = 0%nat).
      { destruct (Hnone P) as [B|(B & t0 & n0 & H0)]; [done|].
        pose proof (Hlock _ _ _ H0 eq_refl) as K0.
        pose proof (Hlock _ _ _ T eq_refl) as K1.
        rewrite K0 in K1. injection K1 as ->. congruence. }
      split; try inv_easy t.
    + destruct (Hpool _ P) as [-> HB].
      split; try inv_easy t.
  - (* lines 59-63 *)
    destruct (Hbuild _ _ _ T eq_refl) as [P B].
    destruct (pool_sizes (environ (shared s))) as [[mn mx]|e].
    2:{ injection Hstep as <-. split; try inv_easy t. }
    destruct (call_build_connect_kwargs HNoArgs (shared s)) as [kw|e];
      injection Hstep as <-; split; try inv_easy t.
  - (* lines 68/71: the constructor *)
    destruct (Hbuild _ _ _ T eq_refl) as [P B].
    destruct (ConnectionPool_init D args _) as [e|]; injection Hstep as <-.
    + split; try inv_easy t.
    + assert (Hothers : ∀ t' p' n', t ≠ t' → threads s !! t' = Some (p', n') →
                                    critical p' = false).
      { intros t' p' n' Hne H. destruct (critical p') eqn:C; [|done].
        pose proof (Hlock _ _ _ H C) as K0.
        pose proof (Hlock _ _ _ T eq_refl) as K1. congruence. }
      split; simpl.
      * intros t' p' n' H C. same_thread t t'; eauto.
      * congruence.
      * intros _. right. rewrite B. split; [done|]. exists t, n.
        by rewrite lookup_insert_eq.
      * intros t' p' n' H. same_thread t t'.
        -- by rewrite B.
        -- by specialize (Hothers _ _ _ n0 H).
      * intros t' p' n' H C. same_thread t t'.
        specialize (Hothers _ _ _ n0 H). by destruct p' as [| | | | | | |[]|].
      * intros t' p' n' H C. same_thread t t'.
        specialize (Hreturn _ _ _ H C). congruence.
      * congruence.
      * intros t' v H. specialize (Hret _ _ H). destruct Hret. congruence.
      * done.
  - (* lines 68/71: the store into _POOL *)
    destruct (Hassign _ _ _ T) as (-> & P & B). injection Hstep as <-.
    assert (Hothers : ∀ t' p' n', t ≠ t' → threads s !! t' = Some (p', n') →
                                  critical p' = false).
    { intros t' p' n' Hne H. destruct (critical p') eqn:C; [|done].
      pose proof (Hlock _ _ _ H C) as K0.
      pose proof (Hlock _ _ _ T eq_refl) as K1. congruence. }
    split; simpl.
    + intros t' p' n' H C. same_thread t t'; eauto.
    + intros p [= <-]. done.
    + congruence.
    + intros t' p' n' H. same_thread t t'.
      by specialize (Hothers _ _ _ n0 H).
    + intros t' p' n' H C. same_thread t t'.
      specialize (Hothers _ _ _ n0 H). by destruct p' as [| | | | | | |[]|].
    + done.
    + congruence.
    + intros t' v H. specialize (Hret _ _ H). destruct Hret. congruence.
    + done.
  - (* the end of the with block *)
    assert (Hothers : ∀ t' p' n', t ≠ t' → threads s !! t' = Some (p', n') →
                                  critical p' = false).
    { intros t' p' n' Hne H. destruct (critical p') eqn:C; [|done].
      pose proof (Hlock _ _ _ H C) as K0.
      pose proof (Hlock _ _ _ T eq_refl) as K1. congruence. }
    destruct pending as [e|]; injection Hstep as <-.
    + destruct (Hbuild _ _ _ T eq_refl) as [P B].
      assert (Hno : ∀ t' v, (t', Ok v) ∉ log s).
      { intros t' v H. specialize (Hret _ _ H). destruct Hret. congruence. }
      destruct n; (split; try inv_easy t); simpl.
      * intros t' p' n' H C. same_thread t t'.
        specialize (Hothers _ _ _ n H). congruence.
      * intros t' v H. apply in_snoc_raise in H. eauto.
      * by apply settled_raise.
      * intros t' p' n' H C. same_thread t t'.
        specialize (Hothers _ _ _ n0 H). congruence.
      * intros t' v H. apply in_snoc_raise in H. eauto.
      * by apply settled_raise.
    + pose proof (Hreturn _ _ _ T eq_refl) as P.
      split; try inv_easy t.
      intros t' p' n' H C. same_thread t t'.
      specialize (Hothers _ _ _ n0 H). congruence.
  - (* line 72 *)
    pose proof (Hreturn _ _ _ T eq_refl) as P. injection Hstep as <-.
    destruct n; (split; try inv_easy t); simpl.
    + intros t' v H. apply in_snoc_return in H as [H| ->]; [eauto|done].
    + by apply settled_return.
    + intros t' v H. apply in_snoc_return in H as [H| ->]; [eauto|done].
    + by apply settled_return.
Qed.

Lemma exec_inv (D : Driver) (schedule : list tid) (s : State) :
  Inv s → Inv (exec D schedule s).
Proof.
  revert s. induction schedule as [|t rest IH]; intros s HI; [done|].
  simpl. apply IH. destruct (step D t s) as [s'|] eqn:E; [|done].
  simpl. by eapply step_inv.
Qed.


End Interleaving.

(** One call after another: a call that returned a pool left it in
    [_POOL], and the next call returns that same pool and builds nothing. *)
Lemma get_pool_again (D : Driver) (w w' : World) (v : option pool_id) :
  get_pool D w = (Ok v, w') →
  (∃ p, v = Some p) ∧ _POOL w' = v ∧ get_pool D w' = (Ok v, w').
Proof.
  intros G.
  assert (H : pool_lib w' = true ∧ ∃ p, v = Some p ∧ _POOL w' = Some p).
  { pose proof (get_pool_frame D w) as (_ & _ & Hl & _). rewrite G in Hl. simpl in Hl.
    destruct (get_pool_cases D w) as [[_ G'] | [(L & p & P & G') | (L & P & r & w1 & B & G')]].
    - congruence.
    - rewrite G' in G. injection G as <- <-. split; [done|]. eauto.
    - split; [congruence|].
      destruct r as [[]|e]; rewrite G' in G; [|discriminate].
      injection G as <- <-.
      destruct (build_pool_cases D w) as [[e B'] | (mn & mx & kw & _ & _ & Hc)];
        [congruence|].
      simpl in Hc. destruct Hc as [(e & _ & B') | [_ B']]; [congruence|].
      rewrite B' in B. injection B as <-. simpl. eauto. }
  destruct H as (L & p & -> & P).
  split; [eauto|]. split; [done|].
  destruct (get_pool_cases D w') as [[L' _] | [(_ & q & P' & ->) | (_ & P' & _)]];
    congruence.
Qed.

(** C2: run one after another, a call of [get_pool] that has returned a pool
    is followed by calls that return that same pool and leave the process
    as it is.  Run by any number of threads, each making any number of
    calls, under any schedule and whatever the constructor answers: at most
    one pool is ever built; every call that returns, returns that pool,
    which is the one [_POOL] holds; and once a call has returned, every
    call that completes later returns it too, none raises. *)
Theorem get_pool_singleton (D : Driver) (env : Environ) (g : Globals) (lib : bool)
    (calls : gmap Threads.tid nat) (schedule : list Threads.tid) :
  (∀ w w' v, get_pool D w = (Ok v, w') →
     (∃ p, v = Some p) ∧ get_pool D w' = (Ok v, w')) ∧
  (pools_built (Threads.shared
     (Threads.exec D schedule (Threads.init (module_state env g lib) calls))) ≤ 1)%nat ∧
  (∀ t v,
     (t, Ok v) ∈ Threads.log
        (Threads.exec D schedule (Threads.init (module_state env g lib) calls)) →
     v = Some 0%nat ∧
     _POOL (Threads.shared
        (Threads.exec D schedule (Threads.init (module_state env g lib) calls)))
     = Some 0%nat) ∧
  (∀ i j t v entry,
     (i < j)%nat →
     Threads.log (Threads.exec D schedule (Threads.init (module_state env g lib) calls))
       !! i = Some (t, Ok v) →
     Threads.log (Threads.exec D schedule (Threads.init (module_state env g lib) calls))
       !! j = Some entry →
     snd entry = Ok v).
Proof.
  split.
  { intros w w' v G. destruct (get_pool_again D w w' v G) as (H1 & _ & H2). done. }
  pose proof (exec_inv D schedule (Threads.init (module_state env g lib) calls)
                (init_inv (module_state env g lib) calls eq_refl eq_refl)) as HI.
  set (s := Threads.exec D schedule _) in *.
  destruct HI as [_ Hpool Hnone _ _ _ _ Hret Hset].
  split; [|split].
  - destruct (pool_cases (Threads.shared s)) as [P | [q P]].
    + destruct (Hnone P) as [-> | [-> _]]; lia.
    + destruct (Hpool _ P) as [_ ->]. lia.
  - exact Hret.
  - intros i j t v [t' [v'|e]] Hij Hi Hj; simpl.
    + destruct (Hret t v) as [-> _]; [by eapply list_elem_of_lookup_2|].
      destruct (Hret t' v') as [-> _]; [by eapply list_elem_of_lookup_2|]. done.
    + specialize (Hset _ _ _ _ _ _ Hi Hj). lia.
Qed.

Lemma exec_replicate_S (D : Driver) (n : nat) (t : Threads.tid) (s : Threads.State) :
  Threads.exec D (replicate (S n) t) s =
  Threads.exec D (replicate n t) (default s (Threads.step D t s)).
Proof. reflexivity. Qed.

Lemma exec_idle (D : Driver) (n : nat) (t : Threads.tid) (s : Threads.State) :
  Threads.threads s !! t = None → Threads.exec D (replicate n t) s = s.
Proof.
  revert s. induction n as [|n IH]; intros s Hs; [done|].
  rewrite exec_replicate_S. unfold Threads.step. rewrite Hs. simpl. by apply IH.
Qed.

(** One step of the thread that runs alone. *)
Ltac solo_step :=
  rewrite exec_replicate_S;
  unfold Threads.step at 1, Threads.goto, Threads.with_lock, Threads.with_shared,
    Threads.finish;
  cbn [Threads.threads Threads.shared Threads.lock Threads.log];
  rewrite ?lookup_insert_eq, ?lookup_singleton_eq;
  cbn [default from_option id negb].

Ltac solo_done :=
  rewrite exec_idle by apply lookup_delete_eq;
  eexists; split; [reflexivity | apply lookup_delete_eq].

(** X18: a thread that runs alone does what [get_pool] does: the same
    outcome, the same state of the process, and the lock is free again. *)
Lemma solo_thread_is_get_pool (D : Driver) (t : Threads.tid) (w : World) :
  ∃ rest,
    Threads.exec D (replicate 9 t)
      (Threads.mkState w None {[ t := (Threads.PStart, 0%nat) ]} [])
    = Threads.mkState (snd (get_pool D w)) None rest [(t, fst (get_pool D w))] ∧
    rest !! t = None.
Proof.
  solo_step.
  destruct (get_pool_cases D w) as [[L ->] | [(L & p & P & ->) | (L & P & r & w' & B & G)]];
    rewrite L; cbn [negb default from_option id fst snd].
  { solo_done. }
  { solo_step. rewrite P. cbn [default from_option id]. solo_step. rewrite P. solo_done. }
  solo_step. rewrite P. cbn [default from_option id].
  solo_step. solo_step. rewrite P. cbn [default from_option id].
  solo_step.
  destruct (build_pool_cases D w) as [[e B'] | (mn & mx & kw & Hs & Hk & Hc)].
  - rewrite B' in B. injection B as <- <-. rewrite G. cbn [fst snd].
    unfold build_pool in B'.
    destruct (pool_sizes (environ w)) as [[mn mx]|e0]; cbn [default from_option id].
    + destruct (call_build_connect_kwargs HNoArgs w) as [kw|e1]; cbn [default from_option id].
      * exfalso. revert B'. unfold bind, call_unit.
        destruct (ConnectionPool_init D _ _); intros [=].
        revert H0. clear. intros H. apply (f_equal trace) in H. simpl in H.
        apply (f_equal length) in H. rewrite length_app in H. simpl in H. lia.
      * injection B' as ->. solo_step. solo_done.
    + injection B' as ->. solo_step. solo_done.
  - rewrite Hs, Hk. cbn [default from_option id]. solo_step.
    cbv zeta in Hc. destruct Hc as [(e & Hi & B') | [Hi B']];
      rewrite B' in B; injection B as <- <-; rewrite G, Hi; cbn [default from_option id fst snd].
    + solo_step. solo_done.
    + solo_step. solo_step. solo_step. solo_done.
Qed.

Example racing_threads_share_one_pool :
  Threads.log (Threads.exec Sample.ok_driver Sample.racing_schedule
                 (Threads.init Sample.pooled_world Sample.two_threads))
  = [(1%nat, Ok (Some 0%nat)); (2%nat, Ok (Some 0%nat))] ∧
  pools_built (Threads.shared
                 (Threads.exec Sample.ok_driver Sample.racing_schedule
                    (Threads.init Sample.pooled_world Sample.two_threads)))
  = 1%nat ∧
  trace (Threads.shared
           (Threads.exec Sample.ok_driver Sample.racing_schedule
              (Threads.init Sample.pooled_world Sample.two_threads)))
  = [EPoolNew (mkPoolArgs None 1 5 (Some (Some {[ "host" := VStr "localhost" ]})))].
Proof. repeat split; vm_compute; reflexivity. Qed.

Lemma get_pool_singleton_witness :
  get_pool Sample.ok_driver Sample.pooled_world
  = (Ok (Some 0%nat), snd (get_pool Sample.ok_driver Sample.pooled_world)) ∧
  get_pool Sample.ok_driver (snd (get_pool Sample.ok_driver Sample.pooled_world))
  = (Ok (Some 0%nat), snd (get_pool Sample.ok_driver Sample.pooled_world)) ∧
  (pools_built (Threads.shared
     (Threads.exec Sample.ok_driver Sample.racing_schedule
        (Threads.init (module_state ∅ Sample.patched_globals true) Sample.two_threads)))
   ≤ 1)%nat.
Proof.
  assert (H : get_pool Sample.ok_driver Sample.pooled_world
              = (Ok (Some 0%nat), snd (get_pool Sample.ok_driver Sample.pooled_world)))
    by (vm_compute; reflexivity).
  pose proof (get_pool_singleton Sample.ok_driver ∅ Sample.patched_globals true
                Sample.two_threads Sample.racing_schedule) as (Hseq & Hone & _).
  split; [exact H|]. split; [|exact Hone].
  exact (proj2 (Hseq _ _ _ H)).
Defined.

Lemma scope_strategy_witness :
  uses_pool Sample.unpooled_world = false ∧
  uses_pool Sample.pooled_world = true ∧
  (environ Sample.unpooled_world !! "SPEEDLIMIT_DISABLE_POOLING" = Some "1" ∨
   pool_lib Sample.unpooled_world = false) ∧
  ∃ evs,
    trace (snd (connection_scope Sample.ok_driver false (caller Sample.idle)
                  Sample.unpooled_world))
    = trace Sample.unpooled_world ++ evs ∧
    Forall (λ ev, is_pool_event ev = false) evs.
Proof.
  assert (U : uses_pool Sample.unpooled_world = false) by reflexivity.
  pose proof (scope_strategy Sample.ok_driver false Sample.idle Sample.unpooled_world)
    as (Hiff & evs & Ht & Hrest).
  split; [exact U|]. split; [reflexivity|].
  split; [exact (proj1 Hiff U)|].
  exists evs. split; [exact Ht|].
  rewrite U in Hrest. exact (proj1 Hrest).
Defined.

(** ** [int] on strings: examples *)

Example py_int_plain : PyInt.py_int "12" = Some 12.
Proof. reflexivity. Qed.

Example py_int_blanks_and_underscore : PyInt.py_int " 1_000 " = Some 1000.
Proof. reflexivity. Qed.

Example py_int_negative : PyInt.py_int "-7" = Some (-7).
Proof. reflexivity. Qed.

Example py_int_leading_zeros : PyInt.py_int "007" = Some 7.
Proof. reflexivity. Qed.

Example py_int_double_underscore : PyInt.py_int "1__0" = None.
Proof. reflexivity. Qed.

Example py_int_letters : PyInt.py_int "abc" = None.
Proof. reflexivity. Qed.

Example py_int_empty : PyInt.py_int "" = None.
Proof. reflexivity. Qed.

Example py_int_sign_alone : PyInt.py_int "+" = None.
Proof. reflexivity. Qed.

Example py_int_decimal_point : PyInt.py_int "2.5" = None.
Proof. reflexivity. Qed.

(** The separators FS..US are blanks for [str.isspace], not for [int]. *)
Example py_int_separator_is_no_blank :
  PyInt.py_int (String (ascii_of_nat 28) "5") = None ∧
  PyInt.py_int (String "009"%char "5") = Some 5.
Proof. split; reflexivity. Qed.

(** Digits and blanks above ASCII: ARABIC-INDIC DIGIT THREE, FULLWIDTH
    DIGITS, a NO-BREAK SPACE; SUPERSCRIPT TWO is no decimal digit. *)
Example py_int_unicode :
  PyInt.py_int "٣" = Some 3 ∧
  PyInt.py_int "-１２" = Some (-12) ∧
  PyInt.py_int (String (ascii_of_nat 194) (String (ascii_of_nat 160) "7")) = Some 7 ∧
  PyInt.py_int "²" = None.
Proof. repeat split; vm_compute; reflexivity. Qed.

(** Bytes that are not UTF-8: a stray continuation byte, and an overlong
    form of the digit five. *)
Example py_int_not_utf8 :
  PyInt.py_int (String (ascii_of_nat 128) "5") = None ∧
  PyInt.py_int (String (ascii_of_nat 192) (String (ascii_of_nat 181) "")) = None.
Proof. split; reflexivity. Qed.

(** The limit on the number of digits. *)
Example py_int_digit_limit :
  PyInt.py_int (string_of_list_ascii (repeat "0"%char 4300)) = Some 0 ∧
  PyInt.py_int (string_of_list_ascii (repeat "0"%char 4301)) = None.
Proof. split; vm_compute; reflexivity. Qed.

(** A value that [int] rejects leaves the sizes at their defaults. *)
Example pool_sizes_rejected_value :
  pool_sizes {[ "SPEEDLIMIT_POOL_MIN_SIZE" := String (ascii_of_nat 28) "5" ]}
  = Ok (1, 5).
Proof. reflexivity. Qed.

(** * Further properties *)

(** ** Leaving a scope: the other ways out *)

(** X1: a scope whose block ended normally calls [commit] (on the pooled
    path unless autocommit is on), then gives the connection up, and makes
    no other call; when these calls raise nothing, the value of the block is
    the value of the scope. *)
Theorem scope_commits_then_releases {A} (D : Driver) (h : Handle) (a : A) (w : World) :
  cleanup_succeeds D →
  fst (scope_leave D h (Ok a) w) = Ok a ∧
  trace (snd (scope_leave D h (Ok a) w)) =
    trace w ++ (if rollback_due h w then [ECommit (handle_conn h)] else [])
            ++ [release_event h None].
Proof.
  intros Hok.
  assert (Hcommit : ∀ c w, conn_commit D c w = None) by (intros; apply Hok).
  assert (Hclose : ∀ c w, conn_close D c w = None) by (intros; apply Hok).
  assert (Hexit : ∀ p c x w, pool_exit D p c x w = None) by (intros; apply Hok).
  destruct h as [c | p c prev]; unfold_scope; simpl.
  - rewrite Hcommit, Hclose. simpl. by rewrite <- app_assoc.
  - destruct (autocommit (heap w !!! c)); simpl; rewrite ?Hcommit, Hexit; simpl;
      by rewrite <- ?app_assoc.
Qed.

Lemma ok_cleanup (D : Driver) :
  conn_commit D = conn_commit Sample.ok_driver →
  conn_rollback D = conn_rollback Sample.ok_driver →
  conn_close D = conn_close Sample.ok_driver →
  pool_exit D = pool_exit Sample.ok_driver →
  cleanup_succeeds D.
Proof. intros H1 H2 H3 H4 c w. rewrite H1, H2, H3, H4. by repeat split. Qed.

Lemma ok_cursor (D : Driver) :
  conn_cursor D = conn_cursor Sample.ok_driver →
  cursor_execute D = cursor_execute Sample.ok_driver →
  cursor_exit D = cursor_exit Sample.ok_driver →
  cursor_succeeds D.
Proof. intros H1 H2 H3 c w. rewrite H1, H2, H3. by repeat split. Qed.

Lemma scope_commits_then_releases_witness :
  cleanup_succeeds Sample.ok_driver ∧
  fst (scope_leave Sample.ok_driver (Unpooled 0) (Ok 5) Sample.unpooled_world) = Ok 5 ∧
  trace (snd (scope_leave Sample.ok_driver (Unpooled 0) (Ok 5) Sample.unpooled_world))
  = [ECommit 0; EClose 0].
Proof.
  split; [by apply ok_cleanup|].
  exact (scope_commits_then_releases Sample.ok_driver (Unpooled 0) 5
           Sample.unpooled_world (ok_cleanup _ eq_refl eq_refl eq_refl eq_refl)).
Defined.

(** X2: when [commit] raises an [Exception] at the end of a block that
    ended normally, the scope calls [rollback] next (the call of line 85 or
    101 stands inside the [try]), then gives the connection up, and ends by
    raising: the exception of [commit] when [rollback] and the release
    raise nothing. *)
Theorem failed_commit_is_rolled_back {A} (D : Driver) (h : Handle) (a : A)
    (w : World) (e : exn) :
  rollback_due h w = true →
  conn_commit D (handle_conn h) (record (ECommit (handle_conn h)) w) = Some e →
  is_Exception e = true →
  (∃ e', fst (scope_leave D h (Ok a) w) = Raise e') ∧
  (∃ exc, trace (snd (scope_leave D h (Ok a) w)) =
            trace w ++ [ECommit (handle_conn h); ERollback (handle_conn h);
                        release_event h exc]) ∧
  (rollback_and_release_succeed D → fst (scope_leave D h (Ok a) w) = Raise e).
Proof.
  intros Hdue Hc He.
  destruct h as [c | p c prev]; simpl in Hdue, Hc |- *.
  - unfold_scope. simpl. rewrite Hc. simpl. rewrite He. simpl.
    destruct (conn_rollback D c _) as [e1|] eqn:R; simpl;
      destruct (conn_close D c _) as [e2|] eqn:C; simpl;
      (split; [eauto|]); (split; [exists None; simpl; by rewrite <- ?app_assoc|]);
      intros Hok;
      try (destruct (Hok c (record (ERollback c) (record (ECommit c) w)))
             as (Hr & _); congruence);
      try (match type of C with conn_close D c ?w0 = _ =>
             destruct (Hok c w0) as (_ & Hx & _); congruence end);
      done.
  - apply negb_true_iff in Hdue.
    unfold_scope. simpl. rewrite Hdue. simpl. rewrite Hc. simpl. rewrite He. simpl.
    rewrite Hdue. simpl.
    destruct (conn_rollback D c _) as [e1|] eqn:R; simpl;
      destruct (pool_exit D p c _ _) as [e2|] eqn:X; simpl;
      (split; [eauto|]); (split; [eexists; simpl; rewrite <- ?app_assoc; reflexivity|]);
      intros Hok;
      try (destruct (Hok c (record (ERollback c) (record (ECommit c) w)))
             as (Hr & _); congruence);
      try (match type of X with pool_exit D p c ?x ?w0 = _ =>
             destruct (Hok c w0) as (_ & _ & Hx); rewrite Hx in X; discriminate end);
      done.
Qed.

Lemma failed_commit_is_rolled_back_witness :
  rollback_due (Unpooled 0) Sample.unpooled_world = true ∧
  conn_commit Sample.broken_commit_driver 0 (record (ECommit 0) Sample.unpooled_world)
  = Some (DriverError 3) ∧
  is_Exception (DriverError 3) = true ∧
  fst (scope_leave Sample.broken_commit_driver (Unpooled 0) (Ok tt) Sample.unpooled_world)
  = Raise (DriverError 3).
Proof.
  split; [reflexivity|]. split; [reflexivity|]. split; [reflexivity|].
  refine (proj2 (proj2 (failed_commit_is_rolled_back Sample.broken_commit_driver
                          (Unpooled 0) tt Sample.unpooled_world (DriverError 3)
                          eq_refl eq_refl eq_refl)) _).
  intros c w. by repeat split.
Defined.

(** X3: an exception of the block that is not an [Exception] (a
    KeyboardInterrupt, say) passes [except Exception]: the scope calls
    neither [commit] nor [rollback], gives the connection up all the same,
    and raises that exception again when the release raises nothing. *)
Theorem interrupt_skips_rollback {A} (D : Driver) (h : Handle) (e : exn) (w : World) :
  is_Exception e = false →
  trace (snd (scope_leave (A:=A) D h (Raise e) w)) =
    trace w ++ [release_event h (Some e)] ∧
  (fst (scope_leave (A:=A) D h (Raise e) w) = Raise e ∨
   ∃ e', release_answer D h (Some e)
           (record (release_event h (Some e))
              (match h with
               | Unpooled _ => w
               | Pooled _ c prev =>
                   set_heap (<[c := mkConn (autocommit (heap w !!! c)) prev]> (heap w)) w
               end)) = Some e' ∧
         fst (scope_leave (A:=A) D h (Raise e) w) = Raise e').
Proof.
  intros He. destruct h as [c | p c prev]; unfold_scope; simpl; rewrite He; simpl.
  - destruct (conn_close D c _) as [e1|] eqn:C; simpl; eauto.
  - destruct (pool_exit D p c _ _) as [e1|] eqn:X; simpl; eauto.
Qed.

Lemma interrupt_skips_rollback_witness :
  is_Exception (Interrupt 1) = false ∧
  trace (snd (scope_leave (A:=unit) Sample.ok_driver (Pooled 0 7 tuple_row)
                (Raise (Interrupt 1)) Sample.pooled_world))
  = [EPoolExit 0 7 (Some (Interrupt 1))].
Proof.
  split; [reflexivity|].
  exact (proj1 (interrupt_skips_rollback (A:=unit) Sample.ok_driver
                  (Pooled 0 7 tuple_row) (Interrupt 1) Sample.pooled_world eq_refl)).
Defined.

(** What leaving a scope keeps. *)
Lemma scope_leave_keeps {A} (D : Driver) (h : Handle) (o : result A) (w : World) :
  (∀ c, autocommit (heap (snd (scope_leave D h o w)) !!! c) = autocommit (heap w !!! c)) ∧
  (∀ c, c ≠ handle_conn h →
        heap (snd (scope_leave D h o w)) !! c = heap w !! c) ∧
  (match h with
   | Unpooled _ => heap (snd (scope_leave D h o w)) = heap w
   | Pooled _ c prev =>
       row_factory (heap (snd (scope_leave D h o w)) !!! c) = prev
   end) ∧
  _POOL (snd (scope_leave D h o w)) = _POOL w ∧
  pools_built (snd (scope_leave D h o w)) = pools_built w ∧
  environ (snd (scope_leave D h o w)) = environ w.
Proof.
  destruct h as [c | p c prev].
  - assert (H : heap (snd (scope_leave D (Unpooled c) o w)) = heap w ∧
                _POOL (snd (scope_leave D (Unpooled c) o w)) = _POOL w ∧
                pools_built (snd (scope_leave D (Unpooled c) o w)) = pools_built w ∧
                environ (snd (scope_leave D (Unpooled c) o w)) = environ w).
    { unfold_scope. destruct o as [a|e]; answers; done. }
    destruct H as (-> & -> & -> & ->). done.
  - assert (H : _POOL (snd (scope_leave D (Pooled p c prev) o w)) = _POOL w ∧
                pools_built (snd (scope_leave D (Pooled p c prev) o w)) = pools_built w ∧
                environ (snd (scope_leave D (Pooled p c prev) o w)) = environ w).
    { destruct (autocommit (heap w !!! c)) eqn:AC;
        unfold_scope; destruct o as [a|e]; answers; done. }
    destruct H as (-> & -> & ->).
    rewrite scope_leave_pooled_heap.
    split.
    { intros c'. destruct (decide (c = c')) as [<-|Hne].
      - by rewrite lookup_total_insert_eq.
      - by rewrite lookup_total_insert_ne. }
    split.
    { intros c' Hne. simpl in Hne. by rewrite lookup_insert_ne. }
    split; [|done]. by rewrite lookup_total_insert_eq.
Qed.

(** ** The pool across scopes *)

Lemma not_pool_event_not_new (ev : event) :
  is_pool_event ev = false → is_pool_new ev = false.
Proof. by destruct ev. Qed.

Lemma commit_or_rollback_not_new (ev : event) :
  is_commit_or_rollback ev = true → is_pool_new ev = false.
Proof. by destruct ev. Qed.

(** Entering a scope when the pool exists already. *)
Lemma scope_enter_with_pool (D : Driver) (dict_rows : bool) (w : World) (p : pool_id) :
  uses_pool w = true → _POOL w = Some p →
  trace (snd (scope_enter D dict_rows w)) = trace w ++ [EPoolEnter p] ∧
  _POOL (snd (scope_enter D dict_rows w)) = Some p ∧
  pools_built (snd (scope_enter D dict_rows w)) = pools_built w ∧
  ∀ h, fst (scope_enter D dict_rows w) = Ok h → ∃ c prev, h = Pooled p c prev.
Proof.
  intros U P.
  assert (L : pool_lib w = true).
  { unfold uses_pool in U. apply negb_true_iff, orb_false_iff in U as [_ U].
    by apply negb_false_iff in U. }
  assert (G : get_pool D w = (Ok (Some p), w)).
  { destruct (get_pool_cases D w) as [[L' _] | [(_ & q & P' & ->) | (_ & P' & _)]];
      congruence. }
  assert (U' : disable_pooling (environ w) || negb (pool_lib w) = false).
  { unfold uses_pool in U. by apply negb_true_iff in U. }
  unfold scope_enter. rewrite U'. unfold bind. rewrite G.
  unfold call_value, adopt, get_row_factory, ret, set_row_factory. simpl.
  destruct (pool_enter D p (record (EPoolEnter p) w)) as [[c attrs]|e]; simpl.
  - destruct (heap w !! c); destruct dict_rows; simpl;
      repeat split; try done; intros h [= <-]; eauto.
  - repeat split; try done.
Qed.

(** X5: once the shared pool exists, a scope never builds another one nor
    replaces it: it records no constructor call, [_POOL] holds the same
    pool afterwards, and on the pooled path the first call of the scope is
    the request of a connection from that very pool. *)
Theorem existing_pool_is_reused {A} (D : Driver) (dict_rows : bool)
    (f : CallerCode A) (w : World) (p : pool_id) :
  _POOL w = Some p →
  ∃ evs,
    trace (snd (connection_scope D dict_rows (caller f) w)) = trace w ++ evs ∧
    Forall (λ ev, is_pool_new ev = false) evs ∧
    _POOL (snd (connection_scope D dict_rows (caller f) w)) = Some p ∧
    pools_built (snd (connection_scope D dict_rows (caller f) w)) = pools_built w ∧
    (uses_pool w = true → ∃ rest, evs = EPoolEnter p :: rest).
Proof.
  intros P. destruct (uses_pool w) eqn:U.
  - rewrite connection_scope_protocol.
    destruct (scope_enter_with_pool D dict_rows w p U P) as (Ht & Hp & Hb & Hh).
    destruct (scope_enter D dict_rows w) as [[h|e] w1]; simpl in *.
    + destruct (Hh h eq_refl) as (c & prev & ->). simpl.
      pose proof (caller_trace f c w1) as (Hct & Hcp & Hcb).
      destruct (caller f c w1) as [o w2]. simpl in *.
      destruct (pooled_leave_shape D p c prev o w2) as (mid & exc & Hl & Hmid).
      pose proof (scope_leave_keeps D (Pooled p c prev) o w2) as (_ & _ & _ & Hkp & Hkb & _).
      exists (EPoolEnter p :: mid ++ [EPoolExit p c exc]).
      split. { etrans; [exact Hl|]. rewrite Hct, Ht. by rewrite <- app_assoc. }
      split.
      { constructor; [done|]. apply Forall_app. split; [|by repeat constructor].
        eapply Forall_impl; [exact Hmid|]. apply commit_or_rollback_not_new. }
      split. { etrans; [exact Hkp|]. congruence. }
      split. { etrans; [exact Hkb|]. congruence. }
      eauto.
    + exists [EPoolEnter p]. repeat split; eauto.
  - destruct (unpooled_scope_shape D dict_rows f w U) as (evs & Ht & Hev & Hp & Hb & _).
    exists evs. split; [done|]. split.
    { eapply Forall_impl; [exact Hev|]. apply not_pool_event_not_new. }
    split; [congruence|]. split; [done|]. discriminate.
Qed.

Lemma existing_pool_is_reused_witness :
  _POOL (snd (get_pool Sample.ok_driver Sample.pooled_world)) = Some 0%nat ∧
  ∃ evs,
    trace (snd (connection_scope Sample.ok_driver false (caller Sample.idle)
                  (snd (get_pool Sample.ok_driver Sample.pooled_world))))
    = trace (snd (get_pool Sample.ok_driver Sample.pooled_world)) ++ evs ∧
    Forall (λ ev, is_pool_new ev = false) evs.
Proof.
  assert (H : _POOL (snd (get_pool Sample.ok_driver Sample.pooled_world)) = Some 0%nat)
    by reflexivity.
  split; [exact H|].
  destruct (existing_pool_is_reused Sample.ok_driver false Sample.idle _ 0%nat H)
    as (evs & Ht & Hev & _).
  exists evs. split; [exact Ht | exact Hev].
Defined.

(** ** [fetch_value]: failures and unusual rows *)

(** A scope left on an [Exception], when [rollback] and the release raise
    nothing: the calls it makes and what it raises. *)
Lemma scope_leave_raise {A} (D : Driver) (h : Handle) (e : exn) (w : World) :
  rollback_and_release_succeed D → is_Exception e = true →
  fst (scope_leave (A:=A) D h (Raise e) w) = Raise e ∧
  trace (snd (scope_leave (A:=A) D h (Raise e) w)) =
    trace w ++ (if rollback_due h w then [ERollback (handle_conn h)] else [])
            ++ [release_event h (Some e)].
Proof.
  intros Hok He.
  assert (Hroll : ∀ c w, conn_rollback D c w = None) by (intros; apply Hok).
  assert (Hclose : ∀ c w, conn_close D c w = None) by (intros; apply Hok).
  assert (Hexit : ∀ p c x w, pool_exit D p c x w = None) by (intros; apply Hok).
  destruct h as [c | p c prev]; unfold_scope; simpl; rewrite He; simpl.
  - rewrite Hroll, Hclose. simpl. by rewrite <- app_assoc.
  - destruct (autocommit (heap w !!! c)); simpl; rewrite ?Hroll, Hexit; simpl;
      by rewrite <- ?app_assoc.
Qed.

(** X6: when [execute] raises an [Exception], [fetch_value] fetches nothing
    and commits nothing: it leaves the cursor, rolls back (on the pooled
    path unless autocommit is on), gives the connection up and raises the
    exception of [execute]; the query is not tried again. *)
Theorem fetch_value_failed_query (D : Driver) (query : string)
    (params : option (list pyval)) (w w1 : World) (h : Handle) (e : exn) :
  rollback_and_release_succeed D →
  scope_enter D false w = (Ok h, w1) →
  conn_cursor D (handle_conn h) (record (ECursor (handle_conn h)) w1) = None →
  cursor_execute D (handle_conn h) query params
    (record (EExecute (handle_conn h) query params)
       (record (ECursor (handle_conn h)) w1)) = Some e →
  is_Exception e = true →
  cursor_exit D (handle_conn h) (Some e)
    (record (ECursorExit (handle_conn h) (Some e))
       (record (EExecute (handle_conn h) query params)
          (record (ECursor (handle_conn h)) w1))) = None →
  fst (fetch_value D query params w) = Raise e ∧
  trace (snd (fetch_value D query params w)) =
    trace w1 ++ [ECursor (handle_conn h); EExecute (handle_conn h) query params;
                 ECursorExit (handle_conn h) (Some e)]
             ++ (if rollback_due h w1 then [ERollback (handle_conn h)] else [])
             ++ [release_event h (Some e)].
Proof.
  intros Hok Henter Hcur Hexec He Hexit.
  rewrite fetch_value_unfold, connection_scope_protocol, Henter.
  set (c := handle_conn h) in *.
  assert (B : fetch_value_block D query params c w1 =
              (Raise e, record (ECursorExit c (Some e))
                          (record (EExecute c query params) (record (ECursor c) w1)))).
  { unfold fetch_value_block, with_cursor, bind, attempt, call_unit, call_value, resume.
    simpl. rewrite Hcur. simpl. rewrite Hexec. simpl. rewrite Hexit. done. }
  rewrite B.
  destruct (scope_leave_raise (A:=pyval) D h e
              (record (ECursorExit c (Some e))
                 (record (EExecute c query params) (record (ECursor c) w1)))
              Hok He) as [Hr Ht].
  split; [exact Hr|].
  etrans; [exact Ht|].
  assert (Hd : rollback_due h (record (ECursorExit c (Some e))
                 (record (EExecute c query params) (record (ECursor c) w1)))
               = rollback_due h w1) by (by destruct h).
  rewrite Hd. simpl. by rewrite <- !app_assoc.
Qed.

Lemma fetch_value_failed_query_witness :
  rollback_and_release_succeed Sample.broken_execute_driver ∧
  fst (fetch_value Sample.broken_execute_driver "SELEC 1" None Sample.unpooled_world)
  = Raise (DriverError 4) ∧
  trace (snd (fetch_value Sample.broken_execute_driver "SELEC 1" None
                Sample.unpooled_world))
  = [EConnect {[ "host" := VStr "localhost" ]}; ECursor 0; EExecute 0 "SELEC 1" None;
     ECursorExit 0 (Some (DriverError 4)); ERollback 0; EClose 0].
Proof.
  assert (Hok : rollback_and_release_succeed Sample.broken_execute_driver).
  { intros c w. by repeat split. }
  split; [exact Hok|].
  assert (Henter : scope_enter Sample.broken_execute_driver false Sample.unpooled_world
                   = (Ok (Unpooled 0),
                      snd (scope_enter Sample.broken_execute_driver false
                             Sample.unpooled_world)))
    by (vm_compute; reflexivity).
  pose proof (fetch_value_failed_query Sample.broken_execute_driver "SELEC 1" None
                Sample.unpooled_world _ (Unpooled 0) (DriverError 4)
                Hok Henter eq_refl eq_refl eq_refl eq_refl) as [H1 H2].
  split; [exact H1|]. rewrite H2. vm_compute. reflexivity.
Defined.

(** What the block of [fetch_value] makes of the row fetched, with a cursor
    that does not fail. *)
Lemma fetch_value_block_any_row (D : Driver) (query : string)
    (params : option (list pyval)) (c : conn_id) (w : World) (row : option Row) :
  cursor_succeeds D →
  cursor_fetchone D c
    (record (EFetchone c) (record (EExecute c query params) (record (ECursor c) w)))
  = Ok row →
  fst (fetch_value_block D query params c w) =
    (if row_truthy row then row_first row else Ok VNone).
Proof.
  intros Hcur Hrow.
  assert (H1 : ∀ c w, conn_cursor D c w = None) by (intros; apply Hcur).
  assert (H2 : ∀ c q ps w, cursor_execute D c q ps w = None)
    by (intros c0 q ps w0; apply (Hcur c0 w0)).
  assert (H3 : ∀ c x w, cursor_exit D c x w = None)
    by (intros c0 x w0; apply (Hcur c0 w0)).
  unfold fetch_value_block, with_cursor, bind, attempt, call_unit, call_value, resume.
  simpl. rewrite H1. simpl. rewrite H2. simpl. rewrite Hrow. simpl.
  destruct (row_truthy row); simpl.
  - destruct (row_first row); simpl; by rewrite H3.
  - by rewrite H3.
Qed.

(** X7: the test [row[0] if row else None] on rows that are not plain
    non-empty tuples.  A row without columns counts as false, so that
    [fetch_value] returns [None] for it as if no row had matched; a row
    that is a dictionary with at least one column has no key [0], so that
    [fetch_value] raises [KeyError] instead of returning a value. *)
Theorem fetch_value_unusual_rows (D : Driver) (query : string)
    (params : option (list pyval)) (w w1 : World) (h : Handle) (row : option Row) :
  cleanup_succeeds D → cursor_succeeds D →
  scope_enter D false w = (Ok h, w1) →
  cursor_fetchone D (handle_conn h)
    (record (EFetchone (handle_conn h))
       (record (EExecute (handle_conn h) query params)
          (record (ECursor (handle_conn h)) w1)))
  = Ok row →
  (row = Some (TupleRow []) → fst (fetch_value D query params w) = Ok VNone) ∧
  (row = Some (DictRow []) → fst (fetch_value D query params w) = Ok VNone) ∧
  (∀ kv rest, row = Some (DictRow (kv :: rest)) →
              fst (fetch_value D query params w) = Raise (KeyError "0")).
Proof.
  intros Hok Hcur Henter Hrow.
  assert (Hok' : rollback_and_release_succeed D).
  { intros c w0. destruct (Hok c w0) as (_ & ? & ? & ?). done. }
  rewrite fetch_value_unfold, connection_scope_protocol, Henter.
  pose proof (fetch_value_block_any_row D query params (handle_conn h) w1 row Hcur Hrow)
    as Hval.
  destruct (fetch_value_block D query params (handle_conn h) w1) as [o w2].
  simpl in Hval. subst o.
  split; [|split].
  - intros ->. simpl. by apply scope_leave_ok.
  - intros ->. simpl. by apply scope_leave_ok.
  - intros kv rest ->. simpl. by apply scope_leave_raise.
Qed.

Lemma fetch_value_unusual_rows_witness :
  cleanup_succeeds Sample.no_column_driver ∧ cursor_succeeds Sample.no_column_driver ∧
  fst (fetch_value Sample.no_column_driver "SELECT FROM roads" None Sample.pooled_world)
  = Ok VNone.
Proof.
  split; [by apply ok_cleanup|]. split; [by apply ok_cursor|].
  refine (proj1 (fetch_value_unusual_rows Sample.no_column_driver "SELECT FROM roads" None
                   Sample.pooled_world _ (Pooled 0 7 tuple_row) (Some (TupleRow []))
                   (ok_cleanup _ eq_refl eq_refl eq_refl eq_refl)
                   (ok_cursor _ eq_refl eq_refl eq_refl) _ eq_refl) eq_refl).
  vm_compute. reflexivity.
Defined.

(** ** [connect] *)

(** What [connect] asks of the driver, with and without dictionary rows. *)
Example connect_asks_for_dict_rows :
  trace (snd (connect Sample.ok_driver true Sample.unpooled_world))
  = [EConnect {[ "host" := VStr "localhost"; "row_factory" := VRowFactory dict_row ]}] ∧
  trace (snd (connect Sample.ok_driver false Sample.unpooled_world))
  = [EConnect {[ "host" := VStr "localhost" ]}].
Proof. split; vm_compute; reflexivity. Qed.

(** ** [get_pool]: failures and constructor arguments *)

(** X9: a call of [get_pool] that raises leaves no pool behind: apart from
    the record of the one constructor call it may have made, the process is
    as before, so that [_POOL] is unchanged and a later call starts anew. *)
Theorem get_pool_failure_leaves_no_pool (D : Driver) (w w' : World) (e : exn) :
  get_pool D w = (Raise e, w') →
  (w' = w ∨ ∃ args, w' = record (EPoolNew args) w) ∧
  _POOL w' = _POOL w ∧ pools_built w' = pools_built w.
Proof.
  intros G.
  assert (H : w' = w ∨ ∃ args, w' = record (EPoolNew args) w).
  { destruct (get_pool_cases D w) as [[_ G'] | [(_ & p & _ & G') | (_ & _ & r & w1 & B & G')]].
    - left. congruence.
    - congruence.
    - destruct r as [[]|e1]; rewrite G' in G; [discriminate|].
      injection G as <- <-.
      destruct (build_pool_cases D w) as [[e2 B'] | (mn & mx & kw & _ & _ & Hc)].
      + left. congruence.
      + simpl in Hc. destruct Hc as [(e2 & _ & B') | [_ B']]; [|congruence].
        right. exists (pool_args mn mx kw). congruence. }
  split; [exact H|]. destruct H as [-> | [args ->]]; done.
Qed.

Lemma get_pool_failure_leaves_no_pool_witness :
  get_pool Sample.broken_pool_driver Sample.pooled_world
  = (Raise (DriverError 5),
     record (EPoolNew (mkPoolArgs None 1 5 (Some (Some {[ "host" := VStr "localhost" ]}))))
       Sample.pooled_world) ∧
  _POOL (record (EPoolNew (mkPoolArgs None 1 5 (Some (Some {[ "host" := VStr "localhost" ]}))))
           Sample.pooled_world) = _POOL Sample.pooled_world.
Proof.
  assert (H : get_pool Sample.broken_pool_driver Sample.pooled_world
              = (Raise (DriverError 5),
                 record (EPoolNew (mkPoolArgs None 1 5
                                     (Some (Some {[ "host" := VStr "localhost" ]}))))
                   Sample.pooled_world))
    by (vm_compute; reflexivity).
  split; [exact H|].
  exact (proj1 (proj2 (get_pool_failure_leaves_no_pool _ _ _ _ H))).
Defined.

(** The constructor call that [get_pool] records is made with the
    arguments that [pool_args] computes from the sizes and the keywords. *)
Lemma get_pool_constructor_call (D : Driver) (w : World) (args : PoolArgs) :
  trace (snd (get_pool D w)) = trace w ++ [EPoolNew args] →
  ∃ min_size max_size kw,
    pool_sizes (environ w) = Ok (min_size, max_size) ∧
    call_build_connect_kwargs HNoArgs w = Ok kw ∧
    args = pool_args min_size max_size kw.
Proof.
  intros Ht.
  assert (Hno : trace w ≠ trace w ++ [EPoolNew args]).
  { intros H. apply (f_equal length) in H. rewrite length_app in H. simpl in H. lia. }
  destruct (get_pool_cases D w) as [[_ G] | [(_ & p & _ & G) | (_ & _ & r & w1 & B & G)]];
    try (rewrite G in Ht; simpl in Ht; congruence).
  destruct (build_pool_cases D w) as [[e2 B'] | (mn & mx & kw & Hs & Hk & Hc)].
  - rewrite B' in B. injection B as <- <-. rewrite G in Ht. simpl in Ht. congruence.
  - exists mn, mx, kw. split; [done|]. split; [done|].
    simpl in Hc.
    destruct Hc as [(e2 & _ & B') | [_ B']]; rewrite B' in B; injection B as <- <-;
      rewrite G in Ht; simpl in Ht; apply app_inv_head in Ht; congruence.
Qed.

(** X10: how [get_pool] hands the keywords over to the constructor (lines
    62-71).  The connection string goes as the positional argument, and
    only when it is not empty; the dictionary passed as [kwargs] never
    holds the key [conninfo] and is never empty (an empty one is left out
    or replaced by [None]); and every other keyword of
    [_build_connect_kwargs] reaches the constructor with its value. *)
Theorem get_pool_constructor_arguments (D : Driver) (w : World) (args : PoolArgs) :
  trace (snd (get_pool D w)) = trace w ++ [EPoolNew args] →
  ∃ kw,
    call_build_connect_kwargs HNoArgs w = Ok kw ∧
    (∀ ci, pa_conninfo args = Some ci →
           truthy ci = true ∧ kw !! "conninfo" = Some ci) ∧
    (pa_conninfo args = None →
     truthy (default VNone (kw !! "conninfo")) = false ∧ pa_kwargs args ≠ None) ∧
    (∀ d, pa_kwargs args = Some (Some d) → d ≠ ∅ ∧ d !! "conninfo" = None) ∧
    (∀ k v, k ≠ "conninfo" → kw !! k = Some v →
            ∃ d, pa_kwargs args = Some (Some d) ∧ d !! k = Some v).
Proof.
  intros Ht.
  destruct (get_pool_constructor_call D w args Ht) as (mn & mx & kw & _ & Hk & ->).
  exists kw. split; [done|].
  unfold pool_args.
  destruct (truthy (default VNone (kw !! "conninfo"))) eqn:T; simpl.
  - split.
    { intros ci [= <-]. split; [done|].
      destruct (kw !! "conninfo") as [v|]; [done|discriminate]. }
    split; [discriminate|].
    split.
    { intros d Hd. case_bool_decide as E; [discriminate|].
      injection Hd as <-. split; [done|]. apply lookup_delete_eq. }
    intros k v Hne Hkv. case_bool_decide as E.
    + exfalso. assert (H : delete "conninfo" kw !! k = Some v)
        by (by rewrite lookup_delete_ne).
      rewrite E in H. by rewrite lookup_empty in H.
    + eexists. split; [done|]. by rewrite lookup_delete_ne.
  - split; [discriminate|].
    split; [done|].
    split.
    { intros d Hd. case_bool_decide as E; [discriminate|].
      injection Hd as <-. split; [done|]. apply lookup_delete_eq. }
    intros k v Hne Hkv. case_bool_decide as E.
    + exfalso. assert (H : delete "conninfo" kw !! k = Some v)
        by (by rewrite lookup_delete_ne).
      rewrite E in H. by rewrite lookup_empty in H.
    + eexists. split; [done|]. by rewrite lookup_delete_ne.
Qed.

Lemma get_pool_constructor_arguments_witness :
  trace (snd (get_pool Sample.ok_driver Sample.url_world))
  = trace Sample.url_world
    ++ [EPoolNew (mkPoolArgs (Some (VStr "postgresql://localhost/speedlimit")) 2 10 None)] ∧
  ∃ kw,
    call_build_connect_kwargs HNoArgs Sample.url_world = Ok kw ∧
    kw !! "conninfo" = Some (VStr "postgresql://localhost/speedlimit").
Proof.
  assert (H : trace (snd (get_pool Sample.ok_driver Sample.url_world))
              = trace Sample.url_world
                ++ [EPoolNew (mkPoolArgs (Some (VStr "postgresql://localhost/speedlimit"))
                                2 10 None)])
    by (vm_compute; reflexivity).
  split; [exact H|].
  destruct (get_pool_constructor_arguments Sample.ok_driver Sample.url_world _ H)
    as (kw & Hk & Hci & _).
  exists kw. split; [exact Hk|]. exact (proj2 (Hci _ eq_refl)).
Defined.

(** X11: a valid configuration is used as it stands.  When the two
    variables hold integers [lo] and [hi] with [1 <= lo <= hi], the
    constructor call that [get_pool] makes carries [min_size = lo] and
    [max_size = hi]; in every case [min_size] is [max(1, lo)], and [max_size]
    is [min_size] itself when [hi] is below it. *)
Theorem configured_sizes_are_used (D : Driver) (w : World) (args : PoolArgs)
    (raw_lo raw_hi : string) (lo hi : Z) :
  trace (snd (get_pool D w)) = trace w ++ [EPoolNew args] →
  environ w !! "SPEEDLIMIT_POOL_MIN_SIZE" = Some raw_lo → PyInt.py_int raw_lo = Some lo →
  environ w !! "SPEEDLIMIT_POOL_MAX_SIZE" = Some raw_hi → PyInt.py_int raw_hi = Some hi →
  pa_min_size args = Z.max 1 lo ∧
  (1 ≤ lo → lo ≤ hi → pa_min_size args = lo ∧ pa_max_size args = hi) ∧
  (hi < Z.max 1 lo → pa_max_size args = pa_min_size args).
Proof.
  intros Ht Hlo Plo Hhi Phi.
  destruct (get_pool_constructor_call D w args Ht) as (mn & mx & kw & Hs & _ & ->).
  destruct (pool_args_sizes mn mx kw) as [-> ->].
  unfold pool_sizes, _env_int in Hs. rewrite Hlo, Plo, Hhi, Phi in Hs.
  injection Hs as <- <-. lia.
Qed.

Lemma configured_sizes_are_used_witness :
  trace (snd (get_pool Sample.ok_driver Sample.url_world))
  = trace Sample.url_world
    ++ [EPoolNew (mkPoolArgs (Some (VStr "postgresql://localhost/speedlimit")) 2 10 None)] ∧
  environ Sample.url_world !! "SPEEDLIMIT_POOL_MIN_SIZE" = Some "2" ∧
  PyInt.py_int "2" = Some 2 ∧
  environ Sample.url_world !! "SPEEDLIMIT_POOL_MAX_SIZE" = Some "10" ∧
  PyInt.py_int "10" = Some 10 ∧
  pa_min_size (mkPoolArgs (Some (VStr "postgresql://localhost/speedlimit")) 2 10 None)
  = Z.max 1 2.
Proof.
  assert (H : trace (snd (get_pool Sample.ok_driver Sample.url_world))
              = trace Sample.url_world
                ++ [EPoolNew (mkPoolArgs (Some (VStr "postgresql://localhost/speedlimit"))
                                2 10 None)])
    by (vm_compute; reflexivity).
  split; [exact H|].
  split; [reflexivity|]. split; [reflexivity|]. split; [reflexivity|]. split; [reflexivity|].
  exact (proj1 (configured_sizes_are_used Sample.ok_driver Sample.url_world _ "2" "10" 2 10
                  H eq_refl eq_refl eq_refl eq_refl)).
Defined.

(** ** The lock, and the progress of the threads *)

Section Progress.
Import Threads ThreadsInv ThreadsProgress.

Lemma init_lock_inv (w : World) (calls : gmap tid nat) : LockInv (init w calls).
Proof.
  split; simpl.
  - intros t p n H. rewrite lookup_fmap in H.
    destruct (calls !! t); simplify_eq/=. done.
  - done.
Qed.

Ltac same_thread t t' :=
  destruct (decide (t = t')) as [->|?]; simplify_map_eq.

(** The goals left by a step of [t] that neither takes nor frees the lock. *)
Ltac lock_kept t T Hown Hheld :=
  split; simpl;
  [ let t' := fresh "t'" in
    let H := fresh "H" in
    intros t' ? ? H ?; same_thread t t'; eauto
  | let t' := fresh "t'" in
    let K := fresh "K" in
    intros t' K; destruct (Hheld _ K) as (? & ? & ? & ?);
    same_thread t t'; eauto ].

Lemma step_lock_inv (D : Driver) (t : tid) (s s' : State) :
  LockInv s → step D t s = Some s' → LockInv s'.
Proof.
  intros [Hown Hheld] Hstep.
  unfold step in Hstep. destruct (threads s !! t) as [[p n]|] eqn:T; [|done].
  destruct p as [| | | | |args|q|pend|]; simpl in Hstep.
  - destruct (negb (pool_lib (shared s))); injection Hstep as <-.
    + destruct n; lock_kept t T Hown Hheld.
    + lock_kept t T Hown Hheld.
  - destruct (_POOL (shared s)); injection Hstep as <-; lock_kept t T Hown Hheld.
  - destruct (lock s) as [holder|] eqn:K; [done|]. injection Hstep as <-.
    split; simpl.
    + intros t' p' n' H C. same_thread t t'; [done|].
      specialize (Hown _ _ _ H C). congruence.
    + intros t' [= <-]. exists PSecondCheck, n. by rewrite lookup_insert_eq.
  - destruct (_POOL (shared s)); injection Hstep as <-; lock_kept t T Hown Hheld.
  - destruct (pool_sizes (environ (shared s))) as [[mn mx]|e].
    2:{ injection Hstep as <-. lock_kept t T Hown Hheld. }
    destruct (call_build_connect_kwargs HNoArgs (shared s));
      injection Hstep as <-; lock_kept t T Hown Hheld.
  - destruct (ConnectionPool_init D args _); injection Hstep as <-;
      lock_kept t T Hown Hheld.
  - injection Hstep as <-. lock_kept t T Hown Hheld.
  - pose proof (Hown _ _ _ T eq_refl) as K.
    destruct pend as [e|]; injection Hstep as <-.
    + destruct n; (split; simpl; [|done]).
      * intros t' p' n' H C. same_thread t t'.
        specialize (Hown _ _ _ H C). congruence.
      * intros t' p' n' H C. same_thread t t'.
        specialize (Hown _ _ _ H C). congruence.
    + split; simpl; [|done].
      intros t' p' n' H C. same_thread t t'.
      specialize (Hown _ _ _ H C). congruence.
  - injection Hstep as <-. destruct n; lock_kept t T Hown Hheld.
Qed.

Lemma exec_lock_inv (D : Driver) (schedule : list tid) (s : State) :
  LockInv s → LockInv (exec D schedule s).
Proof.
  revert s. induction schedule as [|t rest IH]; intros s HI; [done|].
  simpl. apply IH. destruct (step D t s) as [s'|] eqn:E; [|done].
  simpl. by eapply step_lock_inv.
Qed.

Lemma exec_app (D : Driver) (first rest : list tid) (s : State) :
  exec D (first ++ rest) s = exec D rest (exec D first s).
Proof.
  revert s. induction first as [|t first IH]; intros s; [done|].
  simpl. apply IH.
Qed.

(** A running thread can step, unless it waits for a lock that is held. *)
Lemma step_enabled (D : Driver) (t : tid) (p : pc) (n : nat) (s : State) :
  threads s !! t = Some (p, n) →
  (p = PAcquire → lock s = None) →
  ∃ s', step D t s = Some s'.
Proof.
  intros T L. unfold step. rewrite T.
  destruct p as [| | | | |args|q|pend|]; simpl.
  - destruct (negb _); eauto.
  - destruct (_POOL _); eauto.
  - rewrite (L eq_refl). eauto.
  - destruct (_POOL _); eauto.
  - destruct (pool_sizes _) as [[mn mx]|e]; [|eauto].
    destruct (call_build_connect_kwargs _ _); eauto.
  - destruct (ConnectionPool_init _ _ _); eauto.
  - eauto.
  - destruct pend; eauto.
  - eauto.
Qed.

Lemma some_thread_steps (D : Driver) (s : State) :
  LockInv s → threads s ≠ ∅ → ∃ t s', step D t s = Some s'.
Proof.
  intros [Hown Hheld] Hrun.
  destruct (lock s) as [holder|] eqn:K.
  - destruct (Hheld _ eq_refl) as (p & n & T & C).
    exists holder. eapply step_enabled; [exact T|].
    intros ->. discriminate C.
  - apply map_choose in Hrun as (t & [p n] & T).
    exists t. eapply step_enabled; [exact T|done].
Qed.

(** *** The steps that are left *)

Lemma weight_comm (j1 j2 : tid) (z1 z2 : pc * nat) (y : nat) :
  (weight z1 + (weight z2 + y) = weight z2 + (weight z1 + y))%nat.
Proof. lia. Qed.

Lemma work_of_lookup (m : gmap tid (pc * nat)) (t : tid) (x : pc * nat) :
  m !! t = Some x → work_of m = (weight x + work_of (delete t m))%nat.
Proof.
  intros H. unfold work_of.
  apply (map_fold_delete_L (fun _ x acc => (weight x + acc)%nat)); [|done].
  intros. apply weight_comm; done.
Qed.

Lemma work_of_insert (m : gmap tid (pc * nat)) (t : tid) (y : pc * nat) :
  work_of (<[t := y]> m) = (weight y + work_of (delete t m))%nat.
Proof.
  rewrite <- (insert_delete_eq m). unfold work_of.
  apply (map_fold_insert_L (fun _ x acc => (weight x + acc)%nat)).
  - intros. apply weight_comm; done.
  - apply lookup_delete_eq.
Qed.

Lemma work_goto (t : tid) (p p' : pc) (n : nat) (s s1 : State) :
  threads s !! t = Some (p, n) → threads s1 = threads s →
  (rank p' < rank p)%nat →
  (work (goto t p' n s1) < work s)%nat.
Proof.
  intros T E R. unfold work, goto. simpl. rewrite E.
  rewrite work_of_insert, (work_of_lookup _ _ _ T).
  unfold weight. simpl. lia.
Qed.

Lemma rank_pos (p : pc) : (0 < rank p)%nat.
Proof. destruct p; simpl; lia. Qed.

Lemma work_finish (t : tid) (p : pc) (n : nat) (r : result (option pool_id))
    (s s1 : State) :
  threads s !! t = Some (p, n) → threads s1 = threads s →
  (work (finish t n r s1) < work s)%nat.
Proof.
  intros T E. unfold work, finish. simpl. rewrite E.
  rewrite (work_of_lookup _ _ _ T). pose proof (rank_pos p).
  destruct n.
  - unfold weight. simpl. lia.
  - rewrite work_of_insert. unfold weight. simpl. lia.
Qed.

Lemma step_work (D : Driver) (t : tid) (s s' : State) :
  step D t s = Some s' → (work s' < work s)%nat.
Proof.
  intros Hstep.
  unfold step in Hstep. destruct (threads s !! t) as [[p n]|] eqn:T; [|done].
  destruct p as [| | | | |args|q|pend|]; simpl in Hstep.
  - destruct (negb _); injection Hstep as <-.
    + by eapply work_finish.
    + eapply work_goto; [exact T|done|simpl; lia].
  - destruct (_POOL _); injection Hstep as <-;
      (eapply work_goto; [exact T|done|simpl; lia]).
  - destruct (lock s); [done|]. injection Hstep as <-.
    eapply work_goto; [exact T|done|simpl; lia].
  - destruct (_POOL _); injection Hstep as <-;
      (eapply work_goto; [exact T|done|simpl; lia]).
  - destruct (pool_sizes _) as [[mn mx]|e].
    2:{ injection Hstep as <-. eapply work_goto; [exact T|done|simpl; lia]. }
    destruct (call_build_connect_kwargs _ _); injection Hstep as <-;
      (eapply work_goto; [exact T|done|simpl; lia]).
  - destruct (ConnectionPool_init _ _ _); injection Hstep as <-;
      (eapply work_goto; [exact T|done|simpl; lia]).
  - injection Hstep as <-. eapply work_goto; [exact T|done|simpl; lia].
  - destruct pend; injection Hstep as <-.
    + by eapply work_finish.
    + eapply work_goto; [exact T|done|simpl; lia].
  - injection Hstep as <-. by eapply work_finish.
Qed.

Lemma effective_work (D : Driver) (schedule : list tid) (s : State) :
  (effective D schedule s + work (exec D schedule s) ≤ work s)%nat.
Proof.
  revert s. induction schedule as [|t rest IH]; intros s; simpl; [lia|].
  destruct (step D t s) as [s'|] eqn:E; simpl.
  - specialize (IH s'). apply step_work in E. lia.
  - apply IH.
Qed.

Lemma work_init (w : World) (calls : gmap tid nat) :
  work (init w calls) = (9 * total_calls calls)%nat.
Proof.
  unfold work, init, total_calls. simpl.
  induction calls as [|t more calls Hnew IH] using map_ind.
  - rewrite fmap_empty. unfold work_of. by rewrite !map_fold_empty.
  - rewrite fmap_insert, work_of_insert.
    rewrite delete_id by (by rewrite lookup_fmap, Hnew).
    rewrite IH.
    rewrite (map_fold_insert_L (fun _ more acc => (S more + acc)%nat));
      [|intros; lia|done].
    unfold weight. simpl. lia.
Qed.

(** *** The calls and their answers *)

Lemma answered_snoc (t t0 : tid) (r : result (option pool_id)) (l : Log) :
  answered t (l ++ [(t0, r)]) =
  (answered t l + if decide (t0 = t) then 1 else 0)%nat.
Proof.
  unfold answered. rewrite filter_app, length_app. f_equal.
  rewrite filter_cons. simpl. by destruct (decide (t0 = t)).
Qed.

Lemma account_goto (t0 t : tid) (p p' : pc) (n : nat) (s s1 : State) :
  threads s !! t0 = Some (p, n) → threads s1 = threads s → log s1 = log s →
  (answered t (log (goto t0 p' n s1)) + pending t (goto t0 p' n s1)
   = answered t (log s) + pending t s)%nat.
Proof.
  intros T E L. unfold pending, goto. simpl. rewrite E, L.
  destruct (decide (t0 = t)) as [<-|N].
  - by rewrite lookup_insert_eq, T.
  - by rewrite lookup_insert_ne.
Qed.

Lemma account_finish (t0 t : tid) (p : pc) (n : nat)
    (r : result (option pool_id)) (s s1 : State) :
  threads s !! t0 = Some (p, n) → threads s1 = threads s → log s1 = log s →
  (answered t (log (finish t0 n r s1)) + pending t (finish t0 n r s1)
   = answered t (log s) + pending t s)%nat.
Proof.
  intros T E L. unfold pending, finish. simpl. rewrite E, L, answered_snoc.
  destruct (decide (t0 = t)) as [<-|N].
  - rewrite T. destruct n.
    + rewrite lookup_delete_eq. lia.
    + rewrite lookup_insert_eq. lia.
  - destruct n.
    + rewrite lookup_delete_ne by done. lia.
    + rewrite lookup_insert_ne by done. lia.
Qed.

Lemma step_account (D : Driver) (t0 t : tid) (s s' : State) :
  step D t0 s = Some s' →
  (answered t (log s') + pending t s' = answered t (log s) + pending t s)%nat.
Proof.
  intros Hstep.
  unfold step in Hstep. destruct (threads s !! t0) as [[p n]|] eqn:T; [|done].
  destruct p as [| | | | |args|q|pend|]; simpl in Hstep.
  - destruct (negb _); injection Hstep as <-.
    + by eapply account_finish.
    + by eapply account_goto.
  - destruct (_POOL _); injection Hstep as <-; by eapply account_goto.
  - destruct (lock s); [done|]. injection Hstep as <-. by eapply account_goto.
  - destruct (_POOL _); injection Hstep as <-; by eapply account_goto.
  - destruct (pool_sizes _) as [[mn mx]|e].
    2:{ injection Hstep as <-. by eapply account_goto. }
    destruct (call_build_connect_kwargs _ _); injection Hstep as <-;
      by eapply account_goto.
  - destruct (ConnectionPool_init _ _ _); injection Hstep as <-;
      by eapply account_goto.
  - injection Hstep as <-. by eapply account_goto.
  - destruct pend; injection Hstep as <-.
    + by eapply account_finish.
    + by eapply account_goto.
  - injection Hstep as <-. by eapply account_finish.
Qed.

Lemma exec_account (D : Driver) (schedule : list tid) (t : tid) (s : State) :
  (answered t (log (exec D schedule s)) + pending t (exec D schedule s)
   = answered t (log s) + pending t s)%nat.
Proof.
  revert s. induction schedule as [|t0 rest IH]; intros s; [done|].
  simpl. rewrite IH. destruct (step D t0 s) as [s'|] eqn:E; [|done].
  simpl. by eapply step_account.
Qed.

Lemma init_account (w : World) (calls : gmap tid nat) (t : tid) :
  (answered t (log (init w calls)) + pending t (init w calls)
   = requested t calls)%nat.
Proof.
  unfold pending, requested, init. simpl. rewrite lookup_fmap.
  by destruct (calls !! t).
Qed.

Lemma every_call_accounted (D : Driver) (w : World)
    (calls : gmap tid nat) (schedule : list tid) (t : tid) :
  (answered t (log (exec D schedule (init w calls)))
   + pending t (exec D schedule (init w calls))
   = requested t calls)%nat.
Proof. rewrite exec_account. apply init_account. Qed.

(** From any state in which the lock is held by a thread inside the block
    or by none, the threads can be run to the end. *)
Lemma run_to_the_end (D : Driver) (k : nat) (s : State) :
  LockInv s → (work s ≤ k)%nat →
  ∃ rest, (length rest ≤ work s)%nat ∧ threads (exec D rest s) = ∅.
Proof.
  revert s. induction k as [|k IH]; intros s HI Hk.
  - exists []. split; [simpl; lia|]. simpl.
    destruct (map_choose_or_empty (threads s)) as [(t & [p n] & T)|E]; [|done].
    exfalso. unfold work in Hk. rewrite (work_of_lookup _ _ _ T) in Hk.
    pose proof (rank_pos p). unfold weight in Hk. simpl in Hk. lia.
  - destruct (decide (threads s = ∅)) as [E|N].
    + exists []. split; [simpl; lia|done].
    + destruct (some_thread_steps D s HI N) as (t & s' & Hstep).
      pose proof (step_work _ _ _ _ Hstep) as W.
      destruct (IH s') as (rest & Hlen & Hend).
      * by eapply step_lock_inv.
      * lia.
      * exists (t :: rest). split; [simpl; lia|].
        simpl. by rewrite Hstep.
Qed.

End Progress.

(** X12: [with _POOL_LOCK] lets one thread at a time into its block.  In
    every state that the threads can reach, whatever the driver does and
    whatever the process was at the start, when a thread is inside the block
    every other running thread is outside. *)
Theorem lock_excludes_other_threads (D : Driver) (w : World)
    (calls : gmap Threads.tid nat) (schedule : list Threads.tid)
    (t t' : Threads.tid) (p p' : Threads.pc) (n n' : nat) :
  Threads.threads (Threads.exec D schedule (Threads.init w calls)) !! t = Some (p, n) →
  ThreadsInv.critical p = true →
  t' ≠ t →
  Threads.threads (Threads.exec D schedule (Threads.init w calls)) !! t' = Some (p', n') →
  ThreadsInv.critical p' = false.
Proof.
  intros T C N T'.
  destruct (exec_lock_inv D schedule _ (init_lock_inv w calls)) as [Hown _].
  destruct (ThreadsInv.critical p') eqn:C'; [|done].
  pose proof (Hown _ _ _ T C) as K. pose proof (Hown _ _ _ T' C') as K'.
  congruence.
Qed.

Lemma lock_excludes_other_threads_witness :
  ThreadsInv.critical Threads.PAcquire = false.
Proof.
  apply (lock_excludes_other_threads Sample.ok_driver Sample.pooled_world
           Sample.two_threads [1; 2; 1; 2; 1]%nat 1%nat 2%nat
           Threads.PSecondCheck Threads.PAcquire 0%nat 0%nat).
  - vm_compute. reflexivity.
  - reflexivity.
  - lia.
  - vm_compute. reflexivity.
Defined.

(** X13: [_POOL_LOCK] is held only by a thread that is inside the [with]
    block: a thread that left the block, by the end of the block or by an
    exception of [_env_int], of [_build_connect_kwargs] or of
    [ConnectionPool], does not keep the lock, nor does a thread that is
    over. *)
Theorem lock_held_only_inside_block (D : Driver) (w : World)
    (calls : gmap Threads.tid nat) (schedule : list Threads.tid) (t : Threads.tid) :
  Threads.lock (Threads.exec D schedule (Threads.init w calls)) = Some t →
  ∃ p n,
    Threads.threads (Threads.exec D schedule (Threads.init w calls)) !! t = Some (p, n) ∧
    ThreadsInv.critical p = true.
Proof.
  intros K.
  destruct (exec_lock_inv D schedule _ (init_lock_inv w calls)) as [_ Hheld].
  by apply Hheld.
Qed.

Lemma lock_held_only_inside_block_witness :
  ∃ p n,
    Threads.threads (Threads.exec Sample.broken_pool_driver [1; 1; 1; 1; 1; 1; 2; 2]%nat
                       (Threads.init Sample.pooled_world Sample.two_threads)) !! 1%nat
    = Some (p, n) ∧
    ThreadsInv.critical p = true.
Proof.
  apply (lock_held_only_inside_block Sample.broken_pool_driver Sample.pooled_world
           Sample.two_threads [1; 1; 1; 1; 1; 1; 2; 2]%nat 1%nat).
  vm_compute. reflexivity.
Defined.

(** X14: the threads never block each other for good.  In every state that
    they can reach and in which a call is still running, some thread can
    take a step: a thread waits at [with _POOL_LOCK] only while another one
    is inside the block, and that one can go on. *)
Theorem running_threads_never_deadlock (D : Driver) (w : World)
    (calls : gmap Threads.tid nat) (schedule : list Threads.tid) :
  Threads.threads (Threads.exec D schedule (Threads.init w calls)) ≠ ∅ →
  ∃ t s', Threads.step D t (Threads.exec D schedule (Threads.init w calls)) = Some s'.
Proof.
  intros Hrun. apply some_thread_steps; [|done].
  apply exec_lock_inv, init_lock_inv.
Qed.

Lemma running_threads_never_deadlock_witness :
  ∃ t s',
    Threads.step Sample.ok_driver t
      (Threads.exec Sample.ok_driver [1; 2; 1; 2; 1; 2]%nat
         (Threads.init Sample.pooled_world Sample.two_threads))
    = Some s'.
Proof.
  apply (running_threads_never_deadlock Sample.ok_driver Sample.pooled_world
           Sample.two_threads [1; 2; 1; 2; 1; 2]%nat).
  intros H. vm_compute in H. discriminate H.
Defined.

(** X16: [get_pool] has no loop and does not wait but for the lock: under
    every schedule, all the threads together take at most nine steps for
    each call that was asked for. *)
Theorem calls_take_bounded_steps (D : Driver) (w : World)
    (calls : gmap Threads.tid nat) (schedule : list Threads.tid) :
  (ThreadsProgress.effective D schedule (Threads.init w calls)
   ≤ 9 * ThreadsProgress.total_calls calls)%nat.
Proof.
  pose proof (effective_work D schedule (Threads.init w calls)) as H.
  rewrite work_init in H. lia.
Qed.

(** X17: from every state that the threads can reach, they can be run to
    the end, in at most nine steps for each call that was asked for: then no
    thread is left, the lock is free, and every thread has had one outcome
    for each of its calls. *)
Theorem all_calls_can_complete (D : Driver) (w : World)
    (calls : gmap Threads.tid nat) (schedule : list Threads.tid) :
  ∃ rest,
    (length rest ≤ 9 * ThreadsProgress.total_calls calls)%nat ∧
    Threads.threads (Threads.exec D (schedule ++ rest) (Threads.init w calls)) = ∅ ∧
    Threads.lock (Threads.exec D (schedule ++ rest) (Threads.init w calls)) = None ∧
    ∀ t,
      ThreadsProgress.answered t
        (Threads.log (Threads.exec D (schedule ++ rest) (Threads.init w calls)))
      = ThreadsProgress.requested t calls.
Proof.
  pose proof (exec_lock_inv D schedule _ (init_lock_inv w calls)) as HI.
  destruct (run_to_the_end D _ _ HI (le_n _)) as (rest & Hlen & Hend).
  exists rest. rewrite exec_app.
  pose proof (effective_work D schedule (Threads.init w calls)) as Hw.
  rewrite work_init in Hw.
  split; [lia|]. split; [exact Hend|]. split.
  - destruct (exec_lock_inv D rest _ HI) as [_ Hheld].
    destruct (Threads.lock _) as [holder|] eqn:K; [|done].
    destruct (Hheld _ eq_refl) as (p & n & T & _).
    rewrite Hend, lookup_empty in T. discriminate T.
  - intros t.
    pose proof (every_call_accounted D w calls (schedule ++ rest) t) as H.
    rewrite exec_app in H. unfold ThreadsProgress.pending in H.
    rewrite Hend, lookup_empty in H. lia.
Qed.

(** ** A scope that cannot be entered *)

(** X19: when the way into a scope raises (the connection keywords cannot
    be had, [psycopg.connect], [get_pool] or [pool.connection()] raises),
    the block does not run and the caller gets that exception.  No
    connection object was made or changed, and the only calls made are those
    of the entry: nothing is committed, rolled back, closed or given
    back. *)
Theorem failed_entry_runs_nothing {A} (D : Driver) (dict_rows : bool)
    (block : conn_id -> M A) (w w1 : World) (e : exn) :
  scope_enter D dict_rows w = (Raise e, w1) →
  connection_scope D dict_rows block w = (Raise e, w1) ∧
  heap w1 = heap w ∧
  ∃ evs, trace w1 = trace w ++ evs ∧
         Forall (λ ev, is_entry_event ev = true) evs.
Proof.
  intros E. split.
  { rewrite connection_scope_protocol, E. done. }
  unfold scope_enter in E.
  destruct (disable_pooling (environ w) || negb (pool_lib w)).
  - unfold bind, ret in E.
    destruct (connect_cases D dict_rows w) as [[e' C] | (kw & [[e' C] | (attrs & _ & C)])];
      rewrite C in E; simpl in E; [| |discriminate E]; injection E as <- <-.
    + split; [done|]. exists []. by rewrite app_nil_r.
    + split; [done|]. exists [EConnect kw]. split; [done|]. by repeat constructor.
  - unfold bind in E.
    pose proof (get_pool_frame D w) as (Hh & _).
    pose proof (get_pool_trace D w) as Ht.
    destruct (get_pool D w) as [[[p|]|e'] wp]; simpl in Hh, Ht.
    + unfold call_value, get_row_factory, ret, adopt in E.
      destruct (pool_enter D p (record (EPoolEnter p) wp)) as [[c attrs]|e'] eqn:L.
      { simpl in E. destruct (heap wp !! c); destruct dict_rows; discriminate E. }
      simpl in E. injection E as <- <-. split; [done|].
      destruct Ht as [Ht | (args & Ht & _)]; rewrite trace_record, Ht.
      * exists [EPoolEnter p]. split; [done|]. by repeat constructor.
      * exists [EPoolNew args; EPoolEnter p]. rewrite <- app_assoc.
        split; [done|]. by repeat constructor.
    + unfold raise in E. injection E as <- <-. split; [done|].
      destruct Ht as [Ht | (args & Ht & _)]; rewrite Ht.
      * exists []. by rewrite app_nil_r.
      * exists [EPoolNew args]. split; [done|]. by repeat constructor.
    + injection E as <- <-. split; [done|].
      destruct Ht as [Ht | (args & Ht & _)]; rewrite Ht.
      * exists []. by rewrite app_nil_r.
      * exists [EPoolNew args]. split; [done|]. by repeat constructor.
Qed.

Lemma failed_entry_runs_nothing_witness :
  connection_scope Sample.broken_pool_driver false (caller Sample.idle) Sample.pooled_world
  = (Raise (DriverError 5),
     snd (scope_enter Sample.broken_pool_driver false Sample.pooled_world)) ∧
  heap (snd (scope_enter Sample.broken_pool_driver false Sample.pooled_world))
  = heap Sample.pooled_world.
Proof.
  assert (H : scope_enter Sample.broken_pool_driver false Sample.pooled_world
              = (Raise (DriverError 5),
                 snd (scope_enter Sample.broken_pool_driver false Sample.pooled_world)))
    by (vm_compute; reflexivity).
  destruct (failed_entry_runs_nothing Sample.broken_pool_driver false
              (caller Sample.idle) _ _ _ H) as (Hrun & Hheap & _).
  split; [exact Hrun | exact Hheap].
Defined.

(** ** Integers written in decimal *)

Section Decimal.
Import PyInt.

Lemma decode_ascii (l : list ascii) :
  Forall (λ c, (N_of_ascii c < 127)%N) l →
  decode (List.map N_of_ascii l) = Some (List.map N_of_ascii l).
Proof.
  induction 1 as [|c r Hc _ IH]; [done|].
  cbn [List.map decode].
  replace (N_of_ascii c <? 128)%N with true by (symmetry; apply N.ltb_lt; lia).
  by rewrite IH.
Qed.

Lemma transform_ascii (l : list ascii) :
  Forall (λ c, (N_of_ascii c < 127)%N) l →
  transform (List.map N_of_ascii l) = Some l.
Proof.
  induction 1 as [|c r Hc _ IH]; [done|].
  cbn [List.map transform]. unfold to_ascii.
  replace (N_of_ascii c <? 127)%N with true by (symmetry; by apply N.ltb_lt).
  by rewrite ascii_N_embedding, IH.
Qed.

(** On a string of ASCII characters [int] reads the characters as they
    are. *)
Lemma py_int_ascii (raw : string) :
  Forall (λ c, (N_of_ascii c < 127)%N) (list_ascii_of_string raw) →
  py_int raw = from_string (list_ascii_of_string raw).
Proof.
  intros H. unfold py_int. by rewrite decode_ascii, transform_ascii.
Qed.

Lemma lstrip_no_space (l : list ascii) :
  Forall (λ c, is_space c = false) l → lstrip l = l.
Proof. intros H. destruct H as [|c r Hc _]; [done|]. simpl. by rewrite Hc. Qed.

Lemma strip_no_space (l : list ascii) :
  Forall (λ c, is_space c = false) l → strip l = l.
Proof.
  intros H. unfold strip. rewrite (lstrip_no_space l H).
  rewrite lstrip_no_space by (by apply Forall_rev).
  apply rev_involutive.
Qed.

Lemma uint_no_space (u : Decimal.uint) :
  Forall (λ c, is_space c = false)
    (list_ascii_of_string (DecimalString.NilEmpty.string_of_uint u)).
Proof. induction u; simpl; constructor; done. Qed.

Lemma uint_ascii (u : Decimal.uint) :
  Forall (λ c, (N_of_ascii c < 127)%N)
    (list_ascii_of_string (DecimalString.NilEmpty.string_of_uint u)).
Proof. induction u; simpl; constructor; done. Qed.

Lemma count_digits_cons (c : ascii) (l : list ascii) :
  count_digits (c :: l) =
  if is_digit c then S (count_digits l) else count_digits l.
Proof. unfold count_digits. simpl. by destruct (is_digit c). Qed.

Lemma count_digits_uint (u : Decimal.uint) :
  N.of_nat (count_digits
              (list_ascii_of_string (DecimalString.NilEmpty.string_of_uint u)))
  = DecimalPos.Unsigned.usize u.
Proof.
  induction u; [done|..];
    cbn [DecimalString.NilEmpty.string_of_uint list_ascii_of_string
         DecimalPos.Unsigned.usize];
    rewrite count_digits_cons;
    match goal with
    | |- context [is_digit ?c] => change (is_digit c) with true
    end;
    cbv beta iota; rewrite Nat2N.inj_succ; by f_equal.
Qed.

(** The digits of [u], read after digits whose value is that of [d'] read
    from its end. *)
Lemma digits_uint (u d' : Decimal.uint) (prev : bool) :
  (u = Decimal.Nil → prev = true) →
  digits (Z.of_N (DecimalPos.Unsigned.of_lu d')) prev
    (list_ascii_of_string (DecimalString.NilEmpty.string_of_uint u))
  = Some (Z.of_N (DecimalPos.Unsigned.of_lu (Decimal.revapp u d'))).
Proof.
  revert d' prev.
  induction u as [|u IH|u IH|u IH|u IH|u IH|u IH|u IH|u IH|u IH|u IH];
    intros d' prev Hnil.
  { rewrite (Hnil eq_refl). reflexivity. }
  all: cbn [DecimalString.NilEmpty.string_of_uint list_ascii_of_string digits
            Decimal.revapp].
  all: match goal with
       | |- context [Ascii.eqb ?c "_"%char] =>
           change (Ascii.eqb c "_"%char) with false;
           cbv beta iota;
           match goal with
           | |- context [digit_value c] =>
               let v := eval vm_compute in (digit_value c) in
               change (digit_value c) with v; cbv beta iota
           end
       end.
  all: match goal with
       | |- digits ?acc true _ = Some (Z.of_N (DecimalPos.Unsigned.of_lu (Decimal.revapp _ ?d))) =>
           replace acc with (Z.of_N (DecimalPos.Unsigned.of_lu d));
           [apply IH; intros _; reflexivity|]
       end.
  all: cbn [DecimalPos.Unsigned.of_lu]; lia.
Qed.

Lemma digits_of_uint (u : Decimal.uint) :
  u ≠ Decimal.Nil →
  digits 0 false (list_ascii_of_string (DecimalString.NilEmpty.string_of_uint u))
  = Some (Z.of_uint u).
Proof.
  intros Hu.
  pose proof (digits_uint u Decimal.Nil false) as H. simpl in H.
  rewrite H by done.
  unfold Z.of_uint. rewrite DecimalPos.Unsigned.of_uint_alt. reflexivity.
Qed.

Lemma uint_nil_or_not (u : Decimal.uint) : u = Decimal.Nil ∨ u ≠ Decimal.Nil.
Proof. destruct u; [by left|right; discriminate..]. Qed.

Lemma nilzero_uint (u : Decimal.uint) :
  u ≠ Decimal.Nil →
  DecimalString.NilZero.string_of_uint u = DecimalString.NilEmpty.string_of_uint u.
Proof. by destruct u. Qed.

Ltac decide_chars :=
  repeat match goal with
         | |- context [Ascii.eqb ?a ?b] =>
             let v := eval vm_compute in (Ascii.eqb a b) in
             change (Ascii.eqb a b) with v
         end;
  cbv beta iota.

Lemma within_limit (l : list ascii) (n : N) :
  N.of_nat (count_digits l) = n → (n ≤ N.of_nat max_str_digits)%N →
  (max_str_digits <? count_digits l)%nat = false.
Proof. intros <- H. apply Nat.ltb_ge. lia. Qed.

Lemma from_string_uint (u : Decimal.uint) :
  u ≠ Decimal.Nil →
  (DecimalPos.Unsigned.usize u ≤ N.of_nat max_str_digits)%N →
  from_string (list_ascii_of_string (DecimalString.NilEmpty.string_of_uint u))
  = Some (Z.of_uint u).
Proof.
  intros Hu Hsize.
  pose proof (digits_of_uint u Hu) as Hd.
  pose proof (within_limit _ _ (count_digits_uint u) Hsize) as Hl.
  unfold from_string. rewrite strip_no_space by apply uint_no_space.
  destruct u; [done|..];
    cbn [DecimalString.NilEmpty.string_of_uint list_ascii_of_string] in *;
    rewrite Hl; decide_chars; exact Hd.
Qed.

Lemma from_string_neg_uint (u : Decimal.uint) :
  u ≠ Decimal.Nil →
  (DecimalPos.Unsigned.usize u ≤ N.of_nat max_str_digits)%N →
  from_string
    ("-"%char :: list_ascii_of_string (DecimalString.NilEmpty.string_of_uint u))
  = Some (- Z.of_uint u).
Proof.
  intros Hu Hsize.
  pose proof (within_limit _ _ (count_digits_uint u) Hsize) as Hl.
  unfold from_string.
  rewrite strip_no_space by (constructor; [done|apply uint_no_space]).
  rewrite count_digits_cons. change (is_digit "-"%char) with false.
  cbv beta iota. rewrite Hl. decide_chars.
  by rewrite digits_of_uint.
Qed.

(** A number written by [Pos.to_uint] has no more digits than its size
    asks for. *)
Lemma to_uint_size (p : positive) (n : N) :
  (Npos p < 10 ^ n)%N → (DecimalPos.Unsigned.usize (Pos.to_uint p) ≤ n)%N.
Proof.
  intros Hp.
  pose proof (DecimalPos.Unsigned.of_to p) as Hof.
  pose proof (DecimalPos.Unsigned.to_of (Pos.to_uint p)) as Hnorm.
  rewrite Hof in Hnorm. simpl in Hnorm.
  pose proof (DecimalPos.Unsigned.to_uint_nonzero p) as Hnz.
  assert (Hhead : Decimal.nzhead (Pos.to_uint p) = Pos.to_uint p).
  { rewrite <- DecimalFacts.unorm_nzhead; [by symmetry|].
    intros E. apply Hnz. rewrite Hnorm. by apply DecimalFacts.unorm_0. }
  pose proof (DecimalFacts.nzhead_nonzero (Pos.to_uint p)) as Hd0.
  rewrite Hhead in Hd0.
  rewrite DecimalPos.Unsigned.of_uint_alt in Hof.
  pose proof (DecimalPos.Unsigned.to_uint_nonnil p) as Hnil.
  destruct (Pos.to_uint p) as [|u|u|u|u|u|u|u|u|u|u]; [done|by destruct (Hd0 u)|..].
  all: unfold Decimal.rev in Hof; cbn [Decimal.revapp] in Hof.
  all: rewrite DecimalPos.Unsigned.of_lu_revapp in Hof.
  all: cbn [DecimalPos.Unsigned.of_lu DecimalPos.Unsigned.usize] in *.
  all: apply N.le_succ_l.
  all: apply (N.pow_lt_mono_r_iff 10); [lia|].
  all: eapply N.le_lt_trans; [|exact Hp].
  all: rewrite <- Hof.
  all: generalize (10 ^ DecimalPos.Unsigned.usize u)%N; intros; lia.
Qed.

Lemma within_bound (p : positive) :
  Z.pos p < 10 ^ Z.of_nat max_str_digits →
  (DecimalPos.Unsigned.usize (Pos.to_uint p) ≤ N.of_nat max_str_digits)%N.
Proof.
  intros H. apply to_uint_size. apply N2Z.inj_lt.
  rewrite N2Z.inj_pow, nat_N_Z. exact H.
Qed.

End Decimal.

(** X20: a variable that holds an integer written in decimal, with a minus
    sign in front when it is negative, is read by [_env_int] as that
    integer, whatever the default, as long as the integer has no more
    digits than [int] accepts (4300). *)
Theorem env_int_reads_decimal (env : Environ) (name : string) (default z : Z) :
  Z.abs z < 10 ^ Z.of_nat PyInt.max_str_digits →
  env !! name = Some (DecimalString.NilZero.string_of_int (Z.to_int z)) →
  _env_int env name default = Ok z.
Proof.
  intros Hz H. unfold _env_int. rewrite H.
  assert (PyInt.py_int (DecimalString.NilZero.string_of_int (Z.to_int z)) = Some z)
    as ->; [|done].
  destruct z as [|p|p]; [reflexivity|..]; simpl in Hz;
    pose proof (within_bound p Hz) as Hsize;
    pose proof (DecimalPos.Unsigned.to_uint_nonnil p) as Hnil;
    unfold Z.to_int, DecimalString.NilZero.string_of_int;
    rewrite nilzero_uint by done.
  - rewrite py_int_ascii by apply uint_ascii.
    rewrite from_string_uint by done.
    unfold Z.of_uint. by rewrite DecimalPos.Unsigned.of_to.
  - rewrite py_int_ascii by (constructor; [done|apply uint_ascii]).
    cbn [list_ascii_of_string]. rewrite from_string_neg_uint by done.
    unfold Z.of_uint. by rewrite DecimalPos.Unsigned.of_to.
Qed.

Lemma env_int_reads_decimal_witness :
  _env_int {[ "SPEEDLIMIT_POOL_MAX_SIZE" := "-20" ]} "SPEEDLIMIT_POOL_MAX_SIZE" 5 = Ok (-20).
Proof.
  apply (env_int_reads_decimal _ "SPEEDLIMIT_POOL_MAX_SIZE" 5 (-20)).
  - vm_compute. reflexivity.
  - reflexivity.
Defined.
